(** * Infinite Cortex: the world-state and puzzle engine

    A shallow embedding of the game's state logic ([App.tsx]), of the puzzle
    dialog's answer check ([PuzzleModal]) and of the content provider
    ([geminiService]), followed by the properties of the specification that
    they satisfy or break.

    Conventions of the embedding.
    - A React state update [setGameState(prev => f prev)] is the function
      [f] applied to the current state; a handler runs against the state of
      the render it was created in, which is the current state when events
      are handled one at a time.
    - [await] splits a handler in two: the part that launches the request
      (it records the request as in flight) and the part that runs when the
      backend answers.
    - Everything the environment decides is an argument: the draws of
      [Math.random], the identifiers of [crypto.randomUUID], the clock, the
      backend's answer, the success of the write to local storage.
    - Values that come out of [JSON.parse] are dynamically typed, so fields
      filled from them hold a [JsValue]; a field that an object spread may
      leave out is an [option].
    - Sounds and visual effects carry no state and are left out, except
      the cues of a puzzle resolution. *)

From Stdlib Require Import ZArith QArith String Ascii List Bool Lia Permutation.
From Stdlib Require Import DecimalString Qround.
From Stdlib Require Import DecimalPos DecimalZ.
From stdpp Require Import gmap.

#[local] Set Warnings "-register-all".

Local Open Scope string_scope.
Local Open Scope Z_scope.
Import ListNotations.

(** ** JavaScript values, strings and exceptions *)

Module Js.

(** A call either returns or throws; [catch] is [try { } catch { }]. *)
Inductive Result (A : Type) : Type :=
| Ok (a : A)
| Throw.
Arguments Ok {A} a.
Arguments Throw {A}.

Definition bind {A B : Type} (r : Result A) (k : A -> Result B) : Result B :=
  match r with
  | Ok a => k a
  | Throw => Throw
  end.

Definition catch {A : Type} (body handler : Result A) : Result A :=
  match body with
  | Ok a => Ok a
  | Throw => handler
  end.

Notation "'get' x ':=' c 'in' k" := (bind c (fun x => k))
  (at level 10, x name, c at level 100, k at level 200).

(** The values [JSON.parse] builds, and [undefined]. Numbers are the
    integers; no operation of the model computes with a fractional one. *)
Inductive JsValue : Type :=
| JUndefined
| JNull
| JBool (b : bool)
| JNum (n : Z)
| JStr (s : string)
| JArr (l : list JsValue)
| JObj (fields : list (string * JsValue)).

(** [ToBoolean]: what [!v], [v || w] and [if (v)] look at. *)
Definition truthy (v : JsValue) : bool :=
  match v with
  | JUndefined | JNull => false
  | JBool b => b
  | JNum n => negb (n =? 0)%Z
  | JStr s => negb (s =? "")%string
  | JArr _ | JObj _ => true
  end.

(** [v || w] *)
Definition orElse (v w : JsValue) : JsValue := if truthy v then v else w.

Fixpoint lookupField (k : string) (fields : list (string * JsValue)) : JsValue :=
  match fields with
  | [] => JUndefined
  | (k', v) :: rest => if (k =? k')%string then v else lookupField k rest
  end.

(** [v.k] for a key that no prototype defines: a [TypeError] on [null] and
    [undefined], the own property of an object, [undefined] elsewhere. *)
Definition getProp (v : JsValue) (k : string) : Result JsValue :=
  match v with
  | JUndefined | JNull => Throw
  | JObj fields => Ok (lookupField k fields)
  | _ => Ok JUndefined
  end.

Definition stringOfZ (n : Z) : string := NilZero.string_of_int (Z.to_int n).

(** [String(v)], as a template literal applies it. *)
Fixpoint toString (v : JsValue) : string :=
  match v with
  | JUndefined => "undefined"
  | JNull => "null"
  | JBool true => "true"
  | JBool false => "false"
  | JNum n => stringOfZ n
  | JStr s => s
  | JArr l =>
      (fix join (l : list JsValue) : string :=
         match l with
         | [] => ""
         | x :: rest =>
             let sx := match x with
                       | JUndefined | JNull => ""
                       | _ => toString x
                       end in
             match rest with
             | [] => sx
             | _ :: _ => sx ++ "," ++ join rest
             end
         end) l
  | JObj _ => "[object Object]"
  end.

(** Strings are sequences of code units; the model covers the code units
    below 256 (Latin-1), on which [toLowerCase] and [trim] act as follows. *)
Definition lowerChar (c : ascii) : ascii :=
  let n := N_of_ascii c in
  if ((65 <=? n) && (n <=? 90) || (192 <=? n) && (n <=? 214)
      || (216 <=? n) && (n <=? 222))%N
  then ascii_of_N (n + 32)
  else c.

Fixpoint toLowerCase (s : string) : string :=
  match s with
  | EmptyString => EmptyString
  | String c s' => String (lowerChar c) (toLowerCase s')
  end.

(** White space and line terminators: TAB, LF, VT, FF, CR, SP, NBSP. *)
Definition isWhiteSpace (c : ascii) : bool :=
  let n := N_of_ascii c in
  ((9 <=? n) && (n <=? 13) || (n =? 32) || (n =? 160))%N.

Fixpoint trimStart (s : string) : string :=
  match s with
  | EmptyString => EmptyString
  | String c s' => if isWhiteSpace c then trimStart s' else s
  end.

Fixpoint trimEnd (s : string) : string :=
  match s with
  | EmptyString => EmptyString
  | String c s' =>
      match trimEnd s' with
      | EmptyString => if isWhiteSpace c then EmptyString else String c EmptyString
      | r => String c r
      end
  end.

Definition trim (s : string) : string := trimEnd (trimStart s).

(** [s.includes(t)] *)
Fixpoint includes (s t : string) : bool :=
  if String.prefix t s then true
  else match s with
       | EmptyString => false
       | String _ s' => includes s' t
       end.

(** The characters of a string, as the spread [[...s]] lists them. *)
Fixpoint chars (s : string) : list JsValue :=
  match s with
  | EmptyString => []
  | String c s' => JStr (String c EmptyString) :: chars s'
  end.

(** [[...v]]: arrays and strings are iterable, nothing else is. *)
Definition spread (v : JsValue) : Result (list JsValue) :=
  match v with
  | JArr l => Ok l
  | JStr s => Ok (chars s)
  | _ => Throw
  end.

Definition isUndefined (v : JsValue) : bool :=
  match v with
  | JUndefined => true
  | _ => false
  end.

(** [Array.prototype.sort] with a comparator that ignores its arguments
    and answers by a random draw. [undefined] elements are moved to the end
    without being compared. The others are sorted by insertion, each
    comparison asking the comparator once; the [k]-th call sees the [k]-th
    draw of [rnd]. *)
Section Sort.
Context {A : Type}.
Variable rnd : nat -> Q.

(** [() => Math.random() - 0.5], negative result: first argument first. *)
Definition comparatorNegative (k : nat) : bool :=
  if Qlt_le_dec (rnd k - (1 # 2)) 0 then true else false.

Fixpoint insertBy (k : nat) (x : A) (l : list A) : list A * nat :=
  match l with
  | [] => ([x], k)
  | h :: t =>
      if comparatorNegative k then (x :: l, S k)
      else let '(t', k') := insertBy (S k) x t in (h :: t', k')
  end.

Fixpoint sortBy (k : nat) (l : list A) : list A * nat :=
  match l with
  | [] => ([], k)
  | x :: t => let '(s, k1) := sortBy k t in insertBy k1 x s
  end.
End Sort.

Definition sortRandom (rnd : nat -> Q) (l : list JsValue) : list JsValue :=
  fst (sortBy rnd 0%nat (List.filter (fun v => negb (isUndefined v)) l))
  ++ List.filter isUndefined l.

(** [JSON.parse(JSON.stringify(v))] for a value held in a property: an
    [undefined] property is left out (and reads back as [undefined]), an
    [undefined] array element is written as [null]. *)
Fixpoint jsonCopy (v : JsValue) : JsValue :=
  match v with
  | JArr l =>
      JArr ((fix copyAll (l : list JsValue) : list JsValue :=
               match l with
               | [] => []
               | JUndefined :: rest => JNull :: copyAll rest
               | x :: rest => jsonCopy x :: copyAll rest
               end) l)
  | JObj fields =>
      JObj ((fix copyFields (fs : list (string * JsValue)) : list (string * JsValue) :=
               match fs with
               | [] => []
               | (_, JUndefined) :: rest => copyFields rest
               | (k, x) :: rest => (k, jsonCopy x) :: copyFields rest
               end) fields)
  | _ => v
  end.

End Js.

(** ** The data model ([types.ts], [constants.ts]) *)

Module Types.
Import Js.

(** [BiomeType] of [types.ts]. *)
Inductive BiomeType : Type :=
| DATA_WASTELAND
| NEON_FOREST
| SERVER_CITY
| QUANTUM_FLUX
| REALITY_NODE.

Definition isRealityNode (b : option BiomeType) : bool :=
  match b with
  | Some REALITY_NODE => true
  | _ => false
  end.

(** [TileData] of [types.ts]; its optional [item] is never written or
    read and is left out. A tile built by spreading an absent tile lacks
    all but the fields written, so every field may be missing. *)
Record TileData : Type := mkTile {
  tileId : option string;
  tileX : option Z;
  tileY : option Z;
  biome : option BiomeType;
  description : JsValue;
  explored : option bool;
  hasPuzzle : option bool;
  isSolved : option bool;
  visualFeature : JsValue
}.

(** An entry of [Puzzle.groundingUrls]. *)
Record GroundingUrl : Type := mkUrl {
  title : string;
  uri : string
}.

(** [Puzzle] of [types.ts]. The four fields copied from the backend's
    JSON hold whatever it sent. *)
Record Puzzle : Type := mkPuzzle {
  puzzleId : string;
  question : JsValue;
  puzzleType : JsValue;
  options : JsValue;
  answer : JsValue;
  solved : bool;
  groundingUrls : option (list GroundingUrl)
}.

(** [Coordinates], [PlayerState], [GameLog] and [GameState] of
    [types.ts]. The severity of a log entry is the string the code passes
    to [addLog]. *)
Record Coordinates : Type := mkCoord {
  coordX : Z;
  coordY : Z
}.

Record Player : Type := mkPlayer {
  position : Coordinates;
  inventory : list string;
  xp : Z;
  level : Z
}.

Record GameLog : Type := mkLog {
  logId : string;
  timestamp : Z;
  message : string;
  logType : string
}.

Record GameState : Type := mkState {
  player : Player;
  world : gmap string TileData;
  logs : list GameLog;
  isGenerating : bool;
  activePuzzle : option Puzzle
}.

Definition XP_PER_PUZZLE : Z := 100.
Definition XP_PER_LEVEL : Z := 500.

(** [INITIAL_LOG]; its timestamp is the clock at module load. *)
Definition INITIAL_LOG (loadTime : Z) : GameLog :=
  {| logId := "init";
     timestamp := loadTime;
     message := "System Initialized. Welcome to the Cortex. Use Arrow Keys to navigate.";
     logType := "info" |}.

End Types.

(** ** The content provider ([geminiService]) *)

Module GeminiService.
Import Js Types.

(** What [ai.models.generateContent] resolves to. [response.text] is kept
    as what the code makes of it: absent or empty (falsy), a text that
    [JSON.parse] rejects, or a text that [JSON.parse] turns into a value. *)
Inductive ResponseText : Type :=
| TextAbsent
| TextInvalid
| TextJson (v : JsValue).

Record GroundingChunkWeb : Type := mkWeb {
  webUri : option string;
  webTitle : option string
}.

Record GroundingChunk : Type := mkChunk {
  web : option GroundingChunkWeb
}.

(** [groundingChunks] is
    [response.candidates?.[0]?.groundingMetadata?.groundingChunks]. *)
Record GenerateContentResponse : Type := mkResponse {
  text : ResponseText;
  groundingChunks : option (list GroundingChunk)
}.

(** The request is rejected (network, quota, ...) or answered. *)
Inductive Backend : Type :=
| Rejected
| Replied (r : GenerateContentResponse).

Definition fallbackContent : JsValue :=
  JObj [("description", JStr "Static interference blocks your sensors.");
        ("visualFeature", JStr "Glitch")].

(** The prompt (biome text, coordinates) goes to the backend and has no
    other use; the backend's answer is the argument [b]. *)
Definition generateTileContent (x y : Z) (b : option BiomeType) (reply : Backend)
  : Result JsValue :=
  catch
    match reply with
    | Rejected => Throw
    | Replied response =>
        match text response with
        | TextAbsent => Throw                (* if (!text) throw *)
        | TextInvalid => Throw               (* JSON.parse throws *)
        | TextJson v => Ok v                 (* return JSON.parse(text) *)
        end
    end
    (Ok fallbackContent).

(** [JSON.parse(response.text || '{}')] *)
Definition parseOrEmpty (t : ResponseText) : Result JsValue :=
  match t with
  | TextAbsent => Ok (JObj [])
  | TextInvalid => Throw
  | TextJson v => Ok v
  end.

(** What the environment supplies to one puzzle generation. *)
Record Env : Type := mkEnv {
  uuid : string;            (* crypto.randomUUID() *)
  year : Z;                 (* new Date().getFullYear() *)
  topicDraw : Q;            (* the Math.random() that picks the topic *)
  draws : nat -> Q          (* the Math.random() calls of the comparator *)
}.

Definition topics : list string :=
  ["space exploration"; "ocean discoveries"; "artificial intelligence news";
   "ancient history findings"; "recent nobel prize"].

(** [topics[Math.floor(Math.random() * topics.length)]]; prompt only. *)
Definition randomTopic (e : Env) : option string :=
  nth_error topics (Z.to_nat (Qfloor (topicDraw e * inject_Z (Z.of_nat (List.length topics))))).

(** [.filter(c => c.web?.uri).map(c => ({title: c.web.title || 'Source',
    uri: c.web.uri}))], one chunk at a time. *)
Definition citation (c : GroundingChunk) : option GroundingUrl :=
  match web c with
  | None => None
  | Some w =>
      match webUri w with
      | None => None
      | Some u =>
          if (u =? "")%string then None
          else Some {| title := match webTitle w with
                                | None => "Source"
                                | Some t => if (t =? "")%string then "Source" else t
                                end;
                       uri := u |}
      end
  end.

Fixpoint citations (chunks : list GroundingChunk) : list GroundingUrl :=
  match chunks with
  | [] => []
  | c :: rest =>
      match citation c with
      | Some u => u :: citations rest
      | None => citations rest
      end
  end.

Definition newline : string := String (ascii_of_nat 10) EmptyString.

Definition realityFallback (e : Env) : Puzzle :=
  {| puzzleId := uuid e;
     question := JStr "The Reality Link is unstable. What year is it currently?";
     puzzleType := JStr "reality_check";
     options := JUndefined;
     answer := JStr (stringOfZ (year e));
     solved := false;
     groundingUrls := None |}.

Definition generateRealityPuzzle (e : Env) (reply : Backend) : Result Puzzle :=
  catch
    match reply with
    | Rejected => Throw
    | Replied response =>
        get data := parseOrEmpty (text response) in
        let chunks := match groundingChunks response with
                      | Some l => l
                      | None => []
                      end in
        let urls := citations chunks in
        get wrong := getProp data "wrongOptions" in
        get wrongList := (if truthy wrong then spread wrong else Ok []) in
        get correct := getProp data "correctAnswer" in
        let allOptions := sortRandom (draws e) (wrongList ++ [correct]) in
        get q := getProp data "question" in
        Ok {| puzzleId := uuid e;
              question := JStr ("[REALITY CHECK]" ++ newline ++ toString q);
              puzzleType := JStr "reality_check";
              options := JArr allOptions;
              answer := correct;
              solved := false;
              groundingUrls := Some urls |}
    end
    (Ok (realityFallback e)).

Definition logicFallback (e : Env) : Puzzle :=
  {| puzzleId := uuid e;
     question := JStr "404 Puzzle Not Found. What is 2 + 2?";
     puzzleType := JStr "logic";
     options := JUndefined;
     answer := JStr "4";
     solved := false;
     groundingUrls := None |}.

Definition generatePuzzle (b : option BiomeType) (difficulty : Z) (e : Env)
  (reply : Backend) : Result Puzzle :=
  if isRealityNode b then generateRealityPuzzle e reply
  else
    catch
      match reply with
      | Rejected => Throw
      | Replied response =>
          get data := parseOrEmpty (text response) in
          get q := getProp data "question" in
          get t := getProp data "type" in
          get o := getProp data "options" in
          get a := getProp data "answer" in
          Ok {| puzzleId := uuid e;
                question := q;
                puzzleType := t;
                options := o;
                answer := a;
                solved := false;
                groundingUrls := None |}
      end
      (Ok (logicFallback e)).

End GeminiService.

(** ** The puzzle dialog ([PuzzleModal]) *)

Module PuzzleModal.
Import Js Types.

Inductive Feedback : Type :=
| CORRECT
| INCORRECT.

(** [v.toLowerCase().trim()]: a [TypeError] unless [v] is a string. *)
Definition normalize (v : JsValue) : Result string :=
  match v with
  | JStr s => Ok (trim (toLowerCase s))
  | _ => Throw
  end.

(** [handleSubmit] for the text [answer] typed or picked in the dialog.
    [Ok CORRECT] also schedules [onSolve(true)] one second later;
    [Ok INCORRECT] only shows the verdict. *)
Definition handleSubmit (puzzle : Puzzle) (answer : string) : Result Feedback :=
  get normalizedInput := normalize (JStr answer) in
  get normalizedCorrect := normalize (Types.answer puzzle) in
  if (normalizedInput =? normalizedCorrect)%string
     || includes normalizedInput normalizedCorrect
  then Ok CORRECT
  else Ok INCORRECT.

End PuzzleModal.

(** ** The session controller ([App]) *)

Module App.
Import Js Types GeminiService PuzzleModal.

(** Object spreads [{...prev, field: value}], one per field written. *)
Definition withLogs (l : list GameLog) (s : GameState) : GameState :=
  mkState (player s) (world s) l (isGenerating s) (activePuzzle s).
Definition withWorld (w : gmap string TileData) (s : GameState) : GameState :=
  mkState (player s) w (logs s) (isGenerating s) (activePuzzle s).
Definition withPlayer (p : Player) (s : GameState) : GameState :=
  mkState p (world s) (logs s) (isGenerating s) (activePuzzle s).
Definition withGenerating (b : bool) (s : GameState) : GameState :=
  mkState (player s) (world s) (logs s) b (activePuzzle s).
Definition withActivePuzzle (p : option Puzzle) (s : GameState) : GameState :=
  mkState (player s) (world s) (logs s) (isGenerating s) p.

Definition withPosition (c : Coordinates) (p : Player) : Player :=
  mkPlayer c (inventory p) (xp p) (level p).
Definition withProgress (newXp newLevel : Z) (p : Player) : Player :=
  mkPlayer (position p) (inventory p) newXp newLevel.

(** [{...undefined}] is the empty object. *)
Definition emptyTile : TileData :=
  mkTile None None None None JUndefined None None None JUndefined.
Definition spreadTile (t : option TileData) : TileData :=
  match t with
  | Some tile => tile
  | None => emptyTile
  end.
Definition withContent (d v : JsValue) (t : TileData) : TileData :=
  mkTile (tileId t) (tileX t) (tileY t) (biome t) d (explored t)
         (hasPuzzle t) (isSolved t) v.
Definition withSolved (t : TileData) : TileData :=
  mkTile (tileId t) (tileX t) (tileY t) (biome t) (description t) (explored t)
         (hasPuzzle t) (Some true) (visualFeature t).

(** The truth value of a flag that may be missing. *)
Definition flag (o : option bool) : bool :=
  match o with
  | Some b => b
  | None => false
  end.

(** The key [`${x},${y}`] of the world mapping. *)
Definition tileKey (x y : Z) : string := stringOfZ x ++ "," ++ stringOfZ y.

Definition initialState (loadTime : Z) : GameState :=
  {| player := {| position := mkCoord 0 0; inventory := []; xp := 0; level := 1 |};
     world := ∅;
     logs := [INITIAL_LOG loadTime];
     isGenerating := false;
     activePuzzle := None |}.

(** What [addLog] takes from the environment. *)
Record Stamp : Type := mkStamp {
  stampId : string;     (* crypto.randomUUID() *)
  stampTime : Z         (* Date.now() *)
}.

Definition addLog (st : Stamp) (message type : string) (prev : GameState) : GameState :=
  withLogs (logs prev ++ [mkLog (stampId st) (stampTime st) message type]) prev.

(** *** Save and load *)

Definition copyTile (t : TileData) : TileData :=
  withContent (jsonCopy (description t)) (jsonCopy (visualFeature t)) t.

Definition copyPuzzle (p : Puzzle) : Puzzle :=
  mkPuzzle (puzzleId p) (jsonCopy (question p)) (jsonCopy (puzzleType p))
           (jsonCopy (options p)) (jsonCopy (answer p)) (solved p)
           (groundingUrls p).

(** A parsed save file: [player] and [world] may be missing or falsy. *)
Record SavedState : Type := mkSaved {
  savedPlayer : option Player;
  savedWorld : option (gmap string TileData);
  savedLogs : list GameLog;
  savedIsGenerating : bool;
  savedActivePuzzle : option Puzzle
}.

(** The entry of local storage under [SAVE_KEY], as [loadGame] sees it:
    nothing (or the empty string), a text that [JSON.parse] rejects or
    turns into something that is not an object, or a parsed object. *)
Inductive Storage : Type :=
| NoBackup
| Unreadable
| Backup (p : SavedState).

(** [JSON.parse(JSON.stringify({...gameState, isGenerating: false}))] *)
Definition serialize (gameState : GameState) : SavedState :=
  {| savedPlayer := Some (player gameState);
     savedWorld := Some (copyTile <$> world gameState);
     savedLogs := logs gameState;
     savedIsGenerating := false;
     savedActivePuzzle := copyPuzzle <$> activePuzzle gameState |}.

(** [writeOk] tells whether [localStorage.setItem] succeeds. *)
Definition saveGame (writeOk : bool) (st : Stamp) (gameState : GameState)
  (store : Storage) : GameState * Storage :=
  if writeOk
  then (addLog st "SYSTEM BACKUP COMPLETE. [STATE SAVED]" "success" gameState,
        Backup (serialize gameState))
  else (addLog st "BACKUP FAILED: WRITE ERROR." "error" gameState, store).

(** The boolean tells whether the payload was accepted. *)
Definition loadGame (st : Stamp) (store : Storage) (gameState : GameState)
  : GameState * bool :=
  match store with
  | NoBackup =>
      (addLog st "NO BACKUP FOUND IN LOCAL STORAGE." "warning" gameState, false)
  | Unreadable =>
      (addLog st "RESTORE FAILED: CORRUPT DATA." "error" gameState, false)
  | Backup parsedState =>
      match savedPlayer parsedState, savedWorld parsedState with
      | Some p, Some w =>
          (addLog st "SYSTEM RESTORED FROM BACKUP. [STATE LOADED]" "success"
             (mkState p w (savedLogs parsedState) (savedIsGenerating parsedState)
                      (savedActivePuzzle parsedState)),
           true)
      | _, _ =>
          (addLog st "RESTORE FAILED: CORRUPT DATA." "error" gameState, false)
      end
  end.

(** *** World generation *)

Definition Qlt_bool (a b : Q) : bool := if Qlt_le_dec a b then true else false.

(** [r] holds the two draws of [Math.random]; the second is only made
    when the biome is not the reality node. *)
Definition ensureTileExists (x y : Z) (r : Q * Q) (prev : GameState) : GameState :=
  let id := tileKey x y in
  match world prev !! id with
  | Some _ => prev
  | None =>
      let rand := fst r in
      let biome :=
        if Qlt_bool rand (15 # 100) then REALITY_NODE
        else if Qlt_bool rand (36 # 100) then QUANTUM_FLUX
        else if Qlt_bool rand (57 # 100) then SERVER_CITY
        else if Qlt_bool rand (78 # 100) then NEON_FOREST
        else DATA_WASTELAND in
      let hasPuzzle := isRealityNode (Some biome) || Qlt_bool (7 # 10) (snd r) in
      let newTile :=
        {| tileId := Some id; tileX := Some x; tileY := Some y;
           biome := Some biome;
           description := JStr "Scanning...";
           explored := Some false;
           hasPuzzle := Some hasPuzzle;
           isSolved := Some false;
           visualFeature := JStr "..." |} in
      withWorld (<[id := newTile]> (world prev)) prev
  end.

(** [v !== 'Scanning...'] is the negation of this. *)
Definition isPending (v : JsValue) : bool :=
  match v with
  | JStr s => (s =? "Scanning...")%string
  | _ => false
  end.

(** The requests a handler leaves in flight at its [await]. *)
Inductive Request : Type :=
| TileContentRequest (x y : Z) (b : option BiomeType)
| PuzzleRequest (b : option BiomeType) (difficulty : Z).

(** [enrichTileContent] up to its [await]: the request is made only when
    the tile exists and its description is still the pending sentinel. *)
Definition enrichStart (x y : Z) (prev : GameState) : GameState * option Request :=
  let id := tileKey x y in
  let s1 :=
    match world prev !! id with
    | Some tile => if negb (isPending (description tile)) then prev
                   else withGenerating true prev
    | None => withGenerating true prev
    end in
  match world s1 !! id with
  | Some currentTile =>
      if negb (isPending (description currentTile))
      then (withGenerating false s1, None)
      else (s1, Some (TileContentRequest x y (biome currentTile)))
  | None => (withGenerating false s1, None)
  end.

(** [enrichTileContent] after its [await], given what
    [generateTileContent] resolved to. *)
Definition enrichFinish (x y : Z) (content : Result JsValue) (st : Stamp)
  (prev : GameState) : GameState :=
  let id := tileKey x y in
  let attempt :=
    get c := content in
    get d := getProp c "description" in
    get v := getProp c "visualFeature" in
    Ok (addLog st ("Sector [" ++ stringOfZ x ++ "," ++ stringOfZ y ++ "]: "
                   ++ toString d) "info"
          (withGenerating false
             (withWorld (<[id := withContent d v (spreadTile (world prev !! id))]>
                           (world prev)) prev))) in
  match attempt with
  | Ok s => s
  | Throw => withGenerating false prev        (* the catch clause *)
  end.

(** *** Movement *)

(** [None] is the early [return]: nothing happens while a puzzle is
    attached. *)
Definition movePlayer (dx dy : Z) (gameState : GameState) : option GameState :=
  match activePuzzle gameState with
  | Some _ => None
  | None =>
      let newX := coordX (position (player gameState)) + dx in
      let newY := coordY (position (player gameState)) + dy in
      Some (withPlayer (withPosition (mkCoord newX newY) (player gameState)) gameState)
  end.

Definition radius : Z := 1.

(** The offsets [(dx, dy)] in the order of the two nested loops. *)
Definition offsets : list (Z * Z) :=
  let range := [- radius; 0; radius] in
  flat_map (fun dy => List.map (fun dx => (dx, dy)) range) range.

Fixpoint ensureAll (x y : Z) (d : nat -> Q * Q) (k : nat) (os : list (Z * Z))
  (s : GameState) : GameState :=
  match os with
  | [] => s
  | (dx, dy) :: rest =>
      ensureAll x y d (S k) rest (ensureTileExists (x + dx) (y + dy) (d k) s)
  end.

(** The effect that runs when [gameState.player.position] is a new
    object; [d k] holds the draws of the [k]-th call of
    [ensureTileExists]. *)
Definition positionEffect (d : nat -> Q * Q) (s : GameState)
  : GameState * option Request :=
  let x := coordX (position (player s)) in
  let y := coordY (position (player s)) in
  enrichStart x y (ensureAll x y d 0%nat offsets s).

(** *** Interaction *)

(** [handleTileClick] up to its [await]. It throws when it reads
    [tile.hasPuzzle] of an absent tile. *)
Definition handleTileClick (x y : Z) (st : Stamp) (gameState : GameState)
  : Result (GameState * option Request) :=
  let tile := world gameState !! tileKey x y in
  let dist := Z.abs (x - coordX (position (player gameState)))
              + Z.abs (y - coordY (position (player gameState))) in
  if 1 <? dist
  then Ok (addLog st "Target out of range." "warning" gameState, None)
  else
    match tile with
    | None => Throw
    | Some tile =>
        if flag (hasPuzzle tile) && negb (flag (isSolved tile))
        then
          if dist =? 0
          then Ok (withGenerating true
                     (addLog st "Interfacing with node logic..." "info" gameState),
                   Some (PuzzleRequest (biome tile) (level (player gameState))))
          else Ok (addLog st "Move closer to interface." "warning" gameState, None)
        else Ok (addLog st ("Inspecting " ++ toString (visualFeature tile) ++ ": "
                            ++ toString (description tile)) "info" gameState,
                 None)
    end.

(** [handleTileClick] after its [await], given what [generatePuzzle]
    resolved to. *)
Definition puzzleFinish (puzzle : Result Puzzle) (st : Stamp) (prev : GameState)
  : GameState :=
  match puzzle with
  | Ok p => withGenerating false (withActivePuzzle (Some p) prev)
  | Throw => withGenerating false (addLog st "Connection failed." "danger" prev)
  end.

(** Advisory output of a handler: sounds and visual effects, immediate
    or set on a timer, and log lines set on a timer. *)
Inductive Cue : Type :=
| PlaySound (name : string)
| Effect (x y : Z) (kind : string)
| EffectAfter (ms : Z) (x y : Z) (kind : string)
| LogAfter (ms : Z) (message type : string).

(** [gameState] is the state of the render the handler belongs to: it is
    read for the position, the experience, the level and the puzzle. The
    update is applied to [prev], the state at the time of the call. *)
Definition handlePuzzleSolve (gameState : GameState) (success : bool) (st : Stamp)
  (prev : GameState) : GameState * list Cue :=
  match success, activePuzzle gameState with
  | true, Some _ =>
      let x := coordX (position (player gameState)) in
      let y := coordY (position (player gameState)) in
      let id := tileKey x y in
      let currentXp := xp (player gameState) in
      let currentLevel := level (player gameState) in
      let newXp := currentXp + XP_PER_PUZZLE in
      let newLevel := newXp / XP_PER_LEVEL + 1 in
      let isLevelUp := currentLevel <? newLevel in
      let next :=
        withWorld (<[id := withSolved (spreadTile (world prev !! id))]> (world prev))
          (withPlayer (withProgress newXp newLevel (player prev))
             (withActivePuzzle None prev)) in
      (addLog st ("Logic Gate Bypassed. Data extracted (+" ++ stringOfZ XP_PER_PUZZLE
                  ++ " XP).") "success" next,
       Effect x y "success" ::
       (if isLevelUp
        then [PlaySound "levelUp";
              EffectAfter 500 x y "level_up";
              LogAfter 600 ("*** SYSTEM UPGRADE *** LEVEL " ++ stringOfZ newLevel
                            ++ " REACHED. Processing power increased.") "success"]
        else []))
  | _, _ =>
      (addLog st "Interface closed." "warning" (withActivePuzzle None prev), [])
  end.

(** The dialog's [onClose]. *)
Definition onClose (prev : GameState) : GameState := withActivePuzzle None prev.

(** *** The session as a transition system *)

(** Timers armed by [setTimeout] that touch the game state: the dialog's
    [onSolve(true)], with the state its handler closed over, and the
    level-up log line. *)
Inductive Timer : Type :=
| SolveTimer (gameState : GameState)
| LogTimer (message type : string).

Record System : Type := mkSystem {
  game : GameState;
  storage : Storage;
  inFlight : list Request;
  timers : list Timer
}.

Definition launch (r : option Request) (l : list Request) : list Request :=
  match r with
  | Some q => l ++ [q]
  | None => l
  end.

Fixpoint logTimers (cues : list Cue) : list Timer :=
  match cues with
  | [] => []
  | LogAfter _ m t :: rest => LogTimer m t :: logTimers rest
  | _ :: rest => logTimers rest
  end.

Inductive Event : Type :=
| KeyMove (dx dy : Z) (d : nat -> Q * Q)
| TileClick (x y : Z) (st : Stamp)
| Reply (i : nat) (reply : Backend) (e : Env) (st : Stamp)
| Submit (answer : string)
| TimerFires (i : nat) (st : Stamp)
| ClosePuzzle
| SaveClick (writeOk : bool) (st : Stamp)
| LoadClick (st : Stamp) (d : nat -> Q * Q).

Definition isLoad (ev : Event) : bool :=
  match ev with
  | LoadClick _ _ => true
  | _ => false
  end.

(** One event handled to completion, the position effect included. *)
Definition handle (ev : Event) (s : System) : System :=
  match ev with
  | KeyMove dx dy d =>
      match movePlayer dx dy (game s) with
      | None => s
      | Some g =>
          let '(g', r) := positionEffect d g in
          mkSystem g' (storage s) (launch r (inFlight s)) (timers s)
      end
  | TileClick x y st =>
      match handleTileClick x y st (game s) with
      | Throw => s
      | Ok (g, r) => mkSystem g (storage s) (launch r (inFlight s)) (timers s)
      end
  | Reply i reply e st =>
      match inFlight s !! i with
      | None => s
      | Some (TileContentRequest x y b) =>
          mkSystem (enrichFinish x y (generateTileContent x y b reply) st (game s))
                   (storage s) (delete i (inFlight s)) (timers s)
      | Some (PuzzleRequest b difficulty) =>
          mkSystem (puzzleFinish (generatePuzzle b difficulty e reply) st (game s))
                   (storage s) (delete i (inFlight s)) (timers s)
      end
  | Submit answer =>
      match activePuzzle (game s) with
      | None => s
      | Some puzzle =>
          match handleSubmit puzzle answer with
          | Ok CORRECT =>
              mkSystem (game s) (storage s) (inFlight s)
                       (timers s ++ [SolveTimer (game s)])
          | _ => s
          end
      end
  | TimerFires i st =>
      match timers s !! i with
      | None => s
      | Some (SolveTimer gameState) =>
          let '(g, cues) := handlePuzzleSolve gameState true st (game s) in
          mkSystem g (storage s) (inFlight s) (delete i (timers s) ++ logTimers cues)
      | Some (LogTimer m t) =>
          mkSystem (addLog st m t (game s)) (storage s) (inFlight s)
                   (delete i (timers s))
      end
  | ClosePuzzle =>
      mkSystem (onClose (game s)) (storage s) (inFlight s) (timers s)
  | SaveClick writeOk st =>
      let '(g, store) := saveGame writeOk st (game s) (storage s) in
      mkSystem g store (inFlight s) (timers s)
  | LoadClick st d =>
      match loadGame st (storage s) (game s) with
      | (g, false) => mkSystem g (storage s) (inFlight s) (timers s)
      | (g, true) =>
          let '(g', r) := positionEffect d g in
          mkSystem g' (storage s) (launch r (inFlight s)) (timers s)
      end
  end.

(** The first render and its position effect, with local storage as the
    page finds it. *)
Definition mount (loadTime : Z) (d : nat -> Q * Q) (store : Storage) : System :=
  let '(g, r) := positionEffect d (initialState loadTime) in
  mkSystem g store (launch r []) [].

(** The sessions of the game: the page is opened on empty storage, or on
    the storage an earlier session left; then events are handled. *)
Inductive reachable : System -> Prop :=
| reachable_mount (loadTime : Z) (d : nat -> Q * Q) :
    reachable (mount loadTime d NoBackup)
| reachable_reopen (loadTime : Z) (d : nat -> Q * Q) (earlier : System) :
    reachable earlier -> reachable (mount loadTime d (storage earlier))
| reachable_handle (s : System) (ev : Event) :
    reachable s -> reachable (handle ev s).

Definition run (evs : list Event) (s : System) : System :=
  fold_left (fun acc ev => handle ev acc) evs s.

Definition tileAt (x y : Z) (s : GameState) : option TileData :=
  world s !! tileKey x y.

(** *** The keyboard *)

(** The [keydown] listener: the arrows move by one cell, [Enter]
    interacts with the player's own tile, any other key does nothing. *)
Definition handleKeyDown (key : string) (d : nat -> Q * Q) (st : Stamp)
  (s : System) : System :=
  if (key =? "ArrowUp")%string then handle (KeyMove 0 (-1) d) s
  else if (key =? "ArrowDown")%string then handle (KeyMove 0 1 d) s
  else if (key =? "ArrowLeft")%string then handle (KeyMove (-1) 0 d) s
  else if (key =? "ArrowRight")%string then handle (KeyMove 1 0 d) s
  else if (key =? "Enter")%string
  then handle (TileClick (coordX (position (player (game s))))
                         (coordY (position (player (game s)))) st) s
  else s.

(** *** The head-up display *)

Definition MAX_INVENTORY_SLOTS : nat := 4.

(** [renderInventory]: one slot per index below [MAX_INVENTORY_SLOTS],
    showing [inventory[i]] when it is there and not the empty string. *)
Definition renderInventory (inventory : list string) : list (option string) :=
  List.map (fun i => match nth_error inventory i with
                     | Some item => if (item =? "")%string then None else Some item
                     | None => None
                     end)
           (seq 0 MAX_INVENTORY_SLOTS).

(** The experience readout [xp / level * XP_PER_LEVEL]: its right side. *)
Definition xpGoal (p : Player) : Z := level p * XP_PER_LEVEL.

(** The width of the experience bar, in percent:
    [((xp % XP_PER_LEVEL) / XP_PER_LEVEL) * 100]. The remainder [%] has
    the sign of [xp]. *)
Definition xpBarWidth (p : Player) : Q :=
  (inject_Z (Z.rem (xp p) XP_PER_LEVEL) / inject_Z XP_PER_LEVEL * 100)%Q.

(** *** Visual effects *)

Record VisualEffect : Type := mkEffect {
  effectId : string;
  effectX : Z;
  effectY : Z;
  effectType : string
}.

(** [triggerEffect] up to its timer: the effect is appended under the
    fresh identifier [id]. *)
Definition triggerEffect (id : string) (x y : Z) (type : string)
  (prev : list VisualEffect) : list VisualEffect :=
  prev ++ [mkEffect id x y type].

(** The delay of the cleanup timer. *)
Definition effectDuration (type : string) : Z :=
  if (type =? "success")%string then 1500
  else if (type =? "move")%string then 400
  else 800.

(** The cleanup timer of [triggerEffect]: [prev.filter(e => e.id !== id)]. *)
Definition cleanupEffect (id : string) (prev : list VisualEffect) : list VisualEffect :=
  List.filter (fun e => negb (effectId e =? id)%string) prev.

End App.

(** ** The map ([GameMap]) *)

Module GameMap.
Import Js Types App.

Definition TILE_SIZE : Z := 64.
Definition VIEWPORT_RADIUS : Z := 4.

Record VisibleTile : Type := mkVisible {
  visibleX : Z;
  visibleY : Z;
  data : option TileData
}.

(** The values of a loop variable running from [-VIEWPORT_RADIUS] to
    [VIEWPORT_RADIUS]. *)
Definition viewportRange : list Z := seqZ (- VIEWPORT_RADIUS) (2 * VIEWPORT_RADIUS + 1).

(** [visibleTiles]: rows from top to bottom, each from left to right. *)
Definition visibleTiles (playerPosition : Coordinates)
  (worldData : gmap string TileData) : list VisibleTile :=
  flat_map (fun dy =>
              List.map (fun dx =>
                          let x := coordX playerPosition + dx in
                          let y := coordY playerPosition + dy in
                          mkVisible x y (worldData !! tileKey x y))
                       viewportRange)
           viewportRange.

(** The pixel offsets [relX], [relY] of a cell in the viewport. *)
Definition relX (playerPosition : Coordinates) (x : Z) : Z :=
  (x - coordX playerPosition + VIEWPORT_RADIUS) * TILE_SIZE.
Definition relY (playerPosition : Coordinates) (y : Z) : Z :=
  (y - coordY playerPosition + VIEWPORT_RADIUS) * TILE_SIZE.

(** The side of the viewport, in pixels. *)
Definition viewportSize : Z := (VIEWPORT_RADIUS * 2 + 1) * TILE_SIZE.

(** A cell without data is drawn as an empty square without click
    handler; the others call [onTileClick(x, y)] when clicked. The list
    holds the coordinates that a click on the map can report. *)
Definition clickTargets (playerPosition : Coordinates)
  (worldData : gmap string TileData) : list (Z * Z) :=
  List.map (fun t => (visibleX t, visibleY t))
    (List.filter (fun t => match data t with
                           | Some _ => true
                           | None => false
                           end)
       (visibleTiles playerPosition worldData)).

(** The marks drawn on a cell with data: the active-node mark
    [data.hasPuzzle && !data.isSolved], the secured-node mark
    [data.isSolved], the player's avatar. *)
Definition puzzleIndicator (t : TileData) : bool :=
  flag (hasPuzzle t) && negb (flag (isSolved t)).
Definition solvedIndicator (t : TileData) : bool := flag (isSolved t).
Definition isPlayer (playerPosition : Coordinates) (x y : Z) : bool :=
  (x =? coordX playerPosition) && (y =? coordY playerPosition).

End GameMap.

(** ** The specification's vocabulary *)

Module Spec.
Import Js Types GeminiService PuzzleModal App.


(** [t] occurs in [s] as a substring. *)
Definition substringOf (t s : string) : Prop :=
  exists pre post : string, s = pre ++ t ++ post.

(** The states of the puzzle engine: a puzzle is attached; a puzzle
    generation launched by an interaction is in flight; neither. *)
Definition Active (s : System) : Prop := activePuzzle (game s) <> None.
Definition Pending (s : System) : Prop :=
  exists b difficulty, In (PuzzleRequest b difficulty) (inFlight s).
Definition Idle (s : System) : Prop := ~ Active s /\ ~ Pending s.




(** A citation's source locator and title, when it has them. *)
Definition hasLocator (c : GroundingChunk) (u : string) : Prop :=
  exists w, web c = Some w /\ webUri w = Some u /\ u <> "".
Definition hasTitle (c : GroundingChunk) (t : string) : Prop :=
  exists w, web c = Some w /\ webTitle w = Some t /\ t <> "".

(** The tiles around the player that the position effect materialises. *)
Definition surrounded (g : GameState) : Prop :=
  forall dx dy : Z, -1 <= dx <= 1 -> -1 <= dy <= 1 ->
    is_Some (tileAt (coordX (position (player g)) + dx)
                    (coordY (position (player g)) + dy) g).

(** No [undefined] below the top of a value: what JSON can hold. *)
Fixpoint jsonClean (v : JsValue) : bool :=
  match v with
  | JArr l =>
      (fix cleanAll (l : list JsValue) : bool :=
         match l with
         | [] => true
         | x :: rest => negb (isUndefined x) && jsonClean x && cleanAll rest
         end) l
  | JObj fields =>
      (fix cleanFields (fs : list (string * JsValue)) : bool :=
         match fs with
         | [] => true
         | (_, x) :: rest => negb (isUndefined x) && jsonClean x && cleanFields rest
         end) fields
  | _ => true
  end.

Definition cleanTile (t : TileData) : Prop :=
  jsonClean (description t) = true /\ jsonClean (visualFeature t) = true.

Definition cleanPuzzle (p : Puzzle) : Prop :=
  jsonClean (question p) = true /\ jsonClean (puzzleType p) = true
  /\ jsonClean (options p) = true /\ jsonClean (answer p) = true.

End Spec.

(** * Properties *)

Import Js Types GeminiService PuzzleModal App Spec.

(** ** Strings *)

Section Strings.

Lemma prefix_app (t s : string) :
  String.prefix t s = true <-> exists post, s = t ++ post.
Proof.
  revert s. induction t as [|a t IH]; intros s.
  - destruct s; simpl; split; eauto.
  - destruct s as [|b s]; simpl.
    + split; [discriminate | intros [post H]; discriminate].
    + destruct (ascii_dec a b) as [->|Hne].
      * rewrite IH. split; intros [post H]; exists post.
        -- now rewrite H.
        -- now inversion H.
      * split; [discriminate | intros [post H]; inversion H; congruence].
Qed.

Lemma includes_substring (s t : string) :
  includes s t = true <-> substringOf t s.
Proof.
  unfold substringOf. induction s as [|c s IH]; cbn [includes].
  - destruct (String.prefix t "") eqn:Hp.
    + split; [intros _ | reflexivity].
      apply prefix_app in Hp as [post Hp]. exists "", post. exact Hp.
    + split; [discriminate |].
      intros (pre & post & H). destruct pre; simpl in H.
      * assert (String.prefix t "" = true) by (apply prefix_app; eauto).
        congruence.
      * discriminate.
  - destruct (String.prefix t (String c s)) eqn:Hp.
    + split; [intros _ | reflexivity].
      apply prefix_app in Hp as [post Hp]. exists "", post. exact Hp.
    + rewrite IH. split.
      * intros (pre & post & H). exists (String c pre), post. simpl. now rewrite H.
      * intros (pre & post & H). destruct pre as [|c' pre]; simpl in H.
        -- assert (String.prefix t (String c s) = true) by (apply prefix_app; eauto).
           congruence.
        -- inversion H. eauto.
Qed.

Lemma isWhiteSpace_lowerChar (c : ascii) :
  isWhiteSpace (lowerChar c) = isWhiteSpace c.
Proof. destruct c as [[] [] [] [] [] [] [] []]; reflexivity. Qed.




End Strings.

(** ** The puzzle dialog: answer validation *)

Section AnswerValidation.

Lemma handleSubmit_string (puzzle : Puzzle) (stored submission : string) :
  answer puzzle = JStr stored ->
  handleSubmit puzzle submission =
    if (trim (toLowerCase submission) =? trim (toLowerCase stored))%string
       || includes (trim (toLowerCase submission)) (trim (toLowerCase stored))
    then Ok CORRECT else Ok INCORRECT.
Proof. intros H. unfold handleSubmit. rewrite H. reflexivity. Qed.


Definition fourPuzzle : Puzzle := logicFallback (mkEnv "p" 2026 0%Q (fun _ => 0%Q)).



End AnswerValidation.

(** ** Progression *)

Section Progression.




End Progression.

(** ** The content provider *)

Section Shuffle.
Context {A : Type}.
Variable rnd : nat -> Q.

Lemma insertBy_Permutation (x : A) (l : list A) (k : nat) :
  Permutation (fst (insertBy rnd k x l)) (x :: l).
Proof.
  revert k. induction l as [|h t IH]; intros k; simpl.
  - reflexivity.
  - destruct (comparatorNegative rnd k); simpl; [reflexivity |].
    specialize (IH (S k)). destruct (insertBy rnd (S k) x t) as [t' k'].
    simpl in *. rewrite IH. apply perm_swap.
Qed.

Lemma sortBy_Permutation (l : list A) (k : nat) :
  Permutation (fst (sortBy rnd k l)) l.
Proof.
  induction l as [|x t IH]; simpl; [reflexivity |].
  destruct (sortBy rnd k t) as [s k1]. simpl in IH.
  rewrite insertBy_Permutation. now rewrite IH.
Qed.

Lemma filter_split_Permutation (f : A -> bool) (l : list A) :
  Permutation (List.filter (fun v => negb (f v)) l ++ List.filter f l) l.
Proof.
  induction l as [|x t IH]; simpl; [reflexivity |].
  destruct (f x); simpl.
  - rewrite <- Permutation_middle. now rewrite IH.
  - now rewrite IH.
Qed.

End Shuffle.

Section Provider.

Lemma sortRandom_Permutation (rnd : nat -> Q) (l : list JsValue) :
  Permutation (sortRandom rnd l) l.
Proof.
  unfold sortRandom. rewrite sortBy_Permutation. apply filter_split_Permutation.
Qed.

Lemma citations_omap (chunks : list GroundingChunk) :
  citations chunks = omap citation chunks.
Proof.
  induction chunks as [|c rest IH]; simpl; [reflexivity |].
  rewrite IH. destruct (citation c); reflexivity.
Qed.

Lemma citation_dropped (c : GroundingChunk) :
  (forall u, ~ hasLocator c u) -> citation c = None.
Proof.
  intros Hno. unfold citation.
  destruct (web c) as [w|] eqn:Hw; [| reflexivity].
  destruct (webUri w) as [u|] eqn:Hu; [| reflexivity].
  destruct (String.eqb_spec u "") as [He|Hne]; [reflexivity |].
  exfalso. apply (Hno u). exists w. auto.
Qed.

Lemma citation_kept (c : GroundingChunk) (u : string) :
  hasLocator c u ->
  (forall t, hasTitle c t -> citation c = Some (mkUrl t u))
  /\ ((forall t, ~ hasTitle c t) -> citation c = Some (mkUrl "Source" u)).
Proof.
  intros (w & Hw & Hu & Hne). unfold citation. rewrite Hw, Hu.
  destruct (String.eqb_spec u "") as [He|_]; [contradiction |].
  split.
  - intros t (w' & Hw' & Ht & Htne). rewrite Hw in Hw'. inversion Hw'; subst w'.
    rewrite Ht. destruct (String.eqb_spec t ""); [contradiction | reflexivity].
  - intros Hno. destruct (webTitle w) as [t|] eqn:Ht; [| reflexivity].
    destruct (String.eqb_spec t "") as [He|Htne]; [reflexivity |].
    exfalso. apply (Hno t). exists w. auto.
Qed.

(** C9. When the grounded generation succeeds on an answer that holds a
    question, a correctAnswer and an array wrongOptions, the puzzle's
    options are a permutation of wrongOptions with correctAnswer added
    (each entry kept once: nothing dropped, nothing repeated), the answer
    is correctAnswer, the type is reality_check and the question carries
    the marker in front. The citations are those of the chunks in order:
    a chunk without locator is dropped, one with a locator and no title is
    titled "Source". *)
Theorem C9_grounded_puzzle (difficulty : Z) (e : Env)
  (response : GenerateContentResponse) (fields : list (string * JsValue))
  (q c : string) (wrong : list JsValue) :
  text response = TextJson (JObj fields) ->
  lookupField "question" fields = JStr q ->
  lookupField "correctAnswer" fields = JStr c ->
  lookupField "wrongOptions" fields = JArr wrong ->
  exists (puzzle : Puzzle) (opts : list JsValue),
    generatePuzzle (Some REALITY_NODE) difficulty e (Replied response) = Ok puzzle
    /\ options puzzle = JArr opts
    /\ Permutation opts (wrong ++ [JStr c])
    /\ List.length opts = S (List.length wrong)
    /\ (List.NoDup (wrong ++ [JStr c]) -> List.NoDup opts)
    /\ answer puzzle = JStr c
    /\ puzzleType puzzle = JStr "reality_check"
    /\ question puzzle = JStr ("[REALITY CHECK]" ++ newline ++ q)
    /\ groundingUrls puzzle
       = Some (omap citation (default [] (groundingChunks response)))
    /\ (forall chunk, (forall u, ~ hasLocator chunk u) -> citation chunk = None)
    /\ (forall chunk u, hasLocator chunk u -> (forall t, ~ hasTitle chunk t) ->
          citation chunk = Some (mkUrl "Source" u))
    /\ (forall chunk u t, hasLocator chunk u -> hasTitle chunk t ->
          citation chunk = Some (mkUrl t u)).
Proof.
  intros Htext Hq Hc Hw.
  pose proof (sortRandom_Permutation (draws e) (wrong ++ [JStr c])) as Hperm.
  eexists. exists (sortRandom (draws e) (wrong ++ [JStr c])).
  split.
  { cbn [generatePuzzle isRealityNode]. unfold generateRealityPuzzle.
    rewrite Htext. cbn [parseOrEmpty bind getProp]. rewrite Hw, Hc, Hq.
    cbn [truthy spread bind catch toString]. reflexivity. }
  cbn [options answer puzzleType question groundingUrls].
  split; [reflexivity |]. split; [exact Hperm |].
  split.
  { rewrite (Permutation_length Hperm), length_app. simpl. lia. }
  split.
  { intros Hnd. eapply Permutation_NoDup; [symmetry; exact Hperm | exact Hnd]. }
  do 3 (split; [reflexivity |]).
  split.
  { rewrite citations_omap. destruct (groundingChunks response); reflexivity. }
  split; [exact citation_dropped |].
  split.
  - intros chunk u Hl Hno. now apply (citation_kept chunk u Hl).
  - intros chunk u t Hl Ht. now apply (citation_kept chunk u Hl).
Qed.

Definition abcResponse : GenerateContentResponse :=
  mkResponse
    (TextJson (JObj [("question", JStr "Which one?");
                     ("correctAnswer", JStr "C");
                     ("wrongOptions", JArr [JStr "A"; JStr "B"])]))
    (Some [mkChunk (Some (mkWeb (Some "https://example.org/a") None));
           mkChunk (Some (mkWeb None (Some "No locator")));
           mkChunk None]).

Definition abcEnv : Env :=
  mkEnv "puzzle-1" 2026 (1 # 4) (fun k => if Nat.even k then 1 # 4 else 3 # 4)%Q.

(** The scenario of the specification. *)
Lemma C9_grounded_puzzle_witness :
  exists (puzzle : Puzzle) (opts : list JsValue),
    generatePuzzle (Some REALITY_NODE) 1 abcEnv (Replied abcResponse) = Ok puzzle
    /\ options puzzle = JArr opts
    /\ Permutation opts [JStr "A"; JStr "B"; JStr "C"]
    /\ answer puzzle = JStr "C"
    /\ groundingUrls puzzle = Some [mkUrl "Source" "https://example.org/a"].
Proof.
  destruct (C9_grounded_puzzle 1 abcEnv abcResponse _ "Which one?" "C"
              [JStr "A"; JStr "B"] eq_refl eq_refl eq_refl eq_refl)
    as (puzzle & opts & Hgen & Hopts & Hperm & _ & _ & Hans & _ & _ & Hurls & _).
  exists puzzle, opts. repeat split; assumption.
Defined.

End Provider.

Section MalformedAnswers.







End MalformedAnswers.

(** ** The world store: how a step may change a tile *)

Section WorldSteps.

(** Reality nodes carry a puzzle. *)
Definition tileOk (t : TileData) : Prop :=
  biome t = Some REALITY_NODE -> hasPuzzle t = Some true.

Definition worldOk (w : gmap string TileData) : Prop :=
  forall k t, w !! k = Some t -> tileOk t.

(** What may happen to the tile under one key in a step that resolves no
    puzzle and loads nothing: an existing tile keeps its biome, its puzzle
    flag and its solved flag; a new tile is well formed and unsolved. *)
Definition tileStep (o o' : option TileData) : Prop :=
  match o, o' with
  | Some t, Some t' =>
      biome t' = biome t /\ hasPuzzle t' = hasPuzzle t /\ isSolved t' = isSolved t
  | None, Some t' => tileOk t' /\ isSolved t' <> Some true
  | None, None => True
  | Some _, None => False
  end.

Definition evolves (g g' : GameState) : Prop :=
  forall k, tileStep (world g !! k) (world g' !! k).

Lemma tileStep_refl (o : option TileData) : tileStep o o.
Proof. destruct o; simpl; auto. Qed.

Lemma tileStep_trans (o1 o2 o3 : option TileData) :
  tileStep o1 o2 -> tileStep o2 o3 -> tileStep o1 o3.
Proof.
  destruct o1 as [t1|], o2 as [t2|], o3 as [t3|]; simpl; try tauto.
  - intros (Hb & Hp & Hs) (Hb' & Hp' & Hs'). repeat split; congruence.
  - intros (Hok & Hs) (Hb' & Hp' & Hs'). unfold tileOk in *. split.
    + intros Hr. rewrite Hp'. apply Hok. congruence.
    + congruence.
Qed.

Lemma evolves_refl (g : GameState) : evolves g g.
Proof. intros k. apply tileStep_refl. Qed.

Lemma evolves_trans (g1 g2 g3 : GameState) :
  evolves g1 g2 -> evolves g2 g3 -> evolves g1 g3.
Proof. intros H12 H23 k. eapply tileStep_trans; [apply H12 | apply H23]. Qed.

Lemma evolves_same_world (g g' : GameState) : world g' = world g -> evolves g g'.
Proof. intros H k. rewrite H. apply tileStep_refl. Qed.

Lemma evolves_worldOk (g g' : GameState) :
  evolves g g' -> worldOk (world g) -> worldOk (world g').
Proof.
  intros Hev Hok k t' Hk. specialize (Hev k). rewrite Hk in Hev.
  destruct (world g !! k) as [t|] eqn:Hold; simpl in Hev.
  - destruct Hev as (Hb & Hp & _). specialize (Hok k t Hold).
    unfold tileOk in *. intros Hr. rewrite Hp. apply Hok. congruence.
  - tauto.
Qed.

Lemma evolves_is_Some (g g' : GameState) (k : string) :
  evolves g g' -> is_Some (world g !! k) -> is_Some (world g' !! k).
Proof.
  intros Hev [t Hk]. specialize (Hev k). rewrite Hk in Hev.
  destruct (world g' !! k); [eauto | contradiction].
Qed.

(** An update [{...prev.world, [id]: f({...prev.world[id]})}] that leaves
    the three fields alone. *)
Lemma evolves_update (g g' : GameState) (id : string) (f : TileData -> TileData) :
  world g' = <[id := f (spreadTile (world g !! id))]> (world g) ->
  (forall t, biome (f t) = biome t /\ hasPuzzle (f t) = hasPuzzle t
             /\ isSolved (f t) = isSolved t) ->
  evolves g g'.
Proof.
  intros Hw Hf k. rewrite Hw. destruct (decide (id = k)) as [->|Hne].
  - rewrite lookup_insert_eq. destruct (world g !! k) as [t|]; simpl.
    + apply Hf.
    + destruct (Hf emptyTile) as (Hb & Hp & Hs). unfold tileOk.
      rewrite Hb, Hs. simpl. split; discriminate.
  - rewrite lookup_insert_ne by exact Hne. apply tileStep_refl.
Qed.

Lemma ensureTileExists_player (x y : Z) (r : Q * Q) (g : GameState) :
  player (ensureTileExists x y r g) = player g.
Proof. unfold ensureTileExists. now destruct (world g !! tileKey x y). Qed.

Lemma ensureTileExists_present (x y : Z) (r : Q * Q) (g : GameState) :
  is_Some (world g !! tileKey x y) -> ensureTileExists x y r g = g.
Proof. intros [t Ht]. unfold ensureTileExists. now rewrite Ht. Qed.

Lemma ensureTileExists_creates (x y : Z) (r : Q * Q) (g : GameState) :
  is_Some (world (ensureTileExists x y r g) !! tileKey x y).
Proof.
  unfold ensureTileExists. destruct (world g !! tileKey x y) as [t|] eqn:Ht.
  - rewrite Ht. eauto.
  - cbn [world withWorld]. rewrite lookup_insert_eq. eauto.
Qed.

Lemma ensureTileExists_evolves (x y : Z) (r : Q * Q) (g : GameState) :
  evolves g (ensureTileExists x y r g).
Proof.
  unfold ensureTileExists. destruct (world g !! tileKey x y) as [t|] eqn:Ht.
  - apply evolves_refl.
  - intros k. cbn [world withWorld]. destruct (decide (tileKey x y = k)) as [<-|Hne].
    + rewrite lookup_insert_eq, Ht. simpl. split; [| discriminate].
      unfold tileOk. simpl. destruct (Qlt_bool (fst r) (15 # 100)); simpl.
      * reflexivity.
      * repeat match goal with
               | |- context [if ?c then _ else _] => destruct c
               end; discriminate.
    + rewrite lookup_insert_ne by exact Hne. apply tileStep_refl.
Qed.

Lemma ensureAll_player (x y : Z) (d : nat -> Q * Q) (os : list (Z * Z)) (k : nat)
  (g : GameState) :
  player (ensureAll x y d k os g) = player g.
Proof.
  revert k g. induction os as [|[dx dy] rest IH]; intros k g; simpl; [reflexivity |].
  now rewrite IH, ensureTileExists_player.
Qed.

Lemma ensureAll_evolves (x y : Z) (d : nat -> Q * Q) (os : list (Z * Z)) (k : nat)
  (g : GameState) :
  evolves g (ensureAll x y d k os g).
Proof.
  revert k g. induction os as [|[dx dy] rest IH]; intros k g; simpl.
  - apply evolves_refl.
  - eapply evolves_trans; [apply ensureTileExists_evolves | apply IH].
Qed.

Lemma ensureAll_covers (x y : Z) (d : nat -> Q * Q) (os : list (Z * Z)) (k : nat)
  (g : GameState) (dx dy : Z) :
  In (dx, dy) os ->
  is_Some (world (ensureAll x y d k os g) !! tileKey (x + dx) (y + dy)).
Proof.
  revert k g. induction os as [|[dx' dy'] rest IH]; intros k g; simpl; [tauto |].
  intros [Heq | Hin].
  - inversion Heq; subst dx' dy'.
    eapply evolves_is_Some; [apply ensureAll_evolves |].
    apply ensureTileExists_creates.
  - now apply IH.
Qed.

Lemma ensureAll_present (x y : Z) (d : nat -> Q * Q) (os : list (Z * Z)) (k : nat)
  (g : GameState) :
  (forall dx dy, In (dx, dy) os -> is_Some (world g !! tileKey (x + dx) (y + dy))) ->
  ensureAll x y d k os g = g.
Proof.
  revert k. induction os as [|[dx dy] rest IH]; intros k Hall; simpl; [reflexivity |].
  rewrite ensureTileExists_present by (apply Hall; now left).
  apply IH. intros dx' dy' Hin. apply Hall. now right.
Qed.

Lemma offsets_range (dx dy : Z) :
  In (dx, dy) offsets <-> -1 <= dx <= 1 /\ -1 <= dy <= 1.
Proof.
  unfold offsets, radius. simpl. split.
  - intros H. repeat (destruct H as [H|H]; [inversion H; lia |]). contradiction.
  - intros [Hx Hy].
    assert (dx = -1 \/ dx = 0 \/ dx = 1) as [-> | [-> | ->]] by lia;
      assert (dy = -1 \/ dy = 0 \/ dy = 1) as [-> | [-> | ->]] by lia; tauto.
Qed.

End WorldSteps.

(** ** The handlers, one by one *)

Section Handlers.

(** A tile that exists stays, with its biome and puzzle flag, and stays
    solved if it was. *)
Definition keeps (g g' : GameState) : Prop :=
  forall k t, world g !! k = Some t ->
    exists t', world g' !! k = Some t' /\ biome t' = biome t
               /\ hasPuzzle t' = hasPuzzle t
               /\ (isSolved t = Some true -> isSolved t' = Some true).

Lemma evolves_keeps (g g' : GameState) : evolves g g' -> keeps g g'.
Proof.
  intros Hev k t Hk. specialize (Hev k). rewrite Hk in Hev.
  destruct (world g' !! k) as [t'|]; [| contradiction].
  destruct Hev as (Hb & Hp & Hs). exists t'. repeat split; congruence.
Qed.

Lemma keeps_is_Some (g g' : GameState) (k : string) :
  keeps g g' -> is_Some (world g !! k) -> is_Some (world g' !! k).
Proof. intros Hk [t Ht]. destruct (Hk k t Ht) as (t' & Ht' & _). eauto. Qed.

(** The update of puzzle resolution. *)
Definition solvedAt (id : string) (g g' : GameState) : Prop :=
  world g' = <[id := withSolved (spreadTile (world g !! id))]> (world g).

Lemma solvedAt_keeps (id : string) (g g' : GameState) :
  solvedAt id g g' -> keeps g g'.
Proof.
  intros Hw k t Hk. rewrite Hw. destruct (decide (id = k)) as [->|Hne].
  - rewrite lookup_insert_eq, Hk. eexists. split; [reflexivity |]. simpl. auto.
  - rewrite lookup_insert_ne by exact Hne. eauto.
Qed.

Lemma solvedAt_worldOk (id : string) (g g' : GameState) :
  solvedAt id g g' -> worldOk (world g) -> worldOk (world g').
Proof.
  intros Hw Hok k t'. rewrite Hw. destruct (decide (id = k)) as [->|Hne].
  - rewrite lookup_insert_eq. intros Ht'. inversion Ht'; subst t'.
    destruct (world g !! k) as [t|] eqn:Hk; simpl.
    + exact (Hok k t Hk).
    + discriminate.
  - rewrite lookup_insert_ne by exact Hne. apply Hok.
Qed.

Lemma enrichStart_fields (x y : Z) (g : GameState) :
  world (fst (enrichStart x y g)) = world g
  /\ player (fst (enrichStart x y g)) = player g
  /\ activePuzzle (fst (enrichStart x y g)) = activePuzzle g
  /\ logs (fst (enrichStart x y g)) = logs g.
Proof.
  unfold enrichStart.
  destruct (world g !! tileKey x y) as [t|] eqn:Ht.
  - destruct (isPending (description t)) eqn:Hp; cbn [negb world withGenerating];
      rewrite Ht; rewrite ?Hp; cbn; auto.
  - cbn [world withGenerating]. rewrite Ht. cbn. auto.
Qed.

Lemma positionEffect_player (d : nat -> Q * Q) (g : GameState) :
  player (fst (positionEffect d g)) = player g.
Proof.
  unfold positionEffect.
  destruct (enrichStart_fields (coordX (position (player g)))
              (coordY (position (player g)))
              (ensureAll (coordX (position (player g))) (coordY (position (player g)))
                 d 0%nat offsets g)) as (_ & Hp & _).
  rewrite Hp. apply ensureAll_player.
Qed.

Lemma positionEffect_world (d : nat -> Q * Q) (g : GameState) :
  world (fst (positionEffect d g))
  = world (ensureAll (coordX (position (player g))) (coordY (position (player g)))
             d 0%nat offsets g).
Proof. unfold positionEffect. apply enrichStart_fields. Qed.

Lemma positionEffect_evolves (d : nat -> Q * Q) (g : GameState) :
  evolves g (fst (positionEffect d g)).
Proof.
  eapply evolves_trans; [apply ensureAll_evolves |].
  apply evolves_same_world. apply positionEffect_world.
Qed.

Lemma positionEffect_surrounded (d : nat -> Q * Q) (g : GameState) :
  surrounded (fst (positionEffect d g)).
Proof.
  intros dx dy Hx Hy. unfold tileAt.
  rewrite positionEffect_player, positionEffect_world.
  apply ensureAll_covers. now apply offsets_range.
Qed.

(** On a state whose player is already surrounded, the effect creates no
    tile. *)
Lemma positionEffect_world_surrounded (d : nat -> Q * Q) (g : GameState) :
  surrounded g -> world (fst (positionEffect d g)) = world g.
Proof.
  intros Hs. rewrite positionEffect_world. f_equal. apply ensureAll_present.
  intros dx dy Hin. apply offsets_range in Hin as [Hx Hy]. exact (Hs dx dy Hx Hy).
Qed.

Lemma enrichFinish_player (x y : Z) (content : Result JsValue) (st : Stamp)
  (g : GameState) :
  player (enrichFinish x y content st g) = player g.
Proof.
  unfold enrichFinish. destruct content as [c|]; cbn [bind]; [| reflexivity].
  destruct (getProp c "description"); cbn [bind]; [| reflexivity].
  destruct (getProp c "visualFeature"); reflexivity.
Qed.

Lemma enrichFinish_evolves (x y : Z) (content : Result JsValue) (st : Stamp)
  (g : GameState) :
  evolves g (enrichFinish x y content st g).
Proof.
  unfold enrichFinish.
  destruct content as [c|]; cbn [bind]; [| apply evolves_same_world; reflexivity].
  destruct (getProp c "description") as [dsc|]; cbn [bind];
    [| apply evolves_same_world; reflexivity].
  destruct (getProp c "visualFeature") as [v|]; cbn [bind];
    [| apply evolves_same_world; reflexivity].
  apply (evolves_update _ _ (tileKey x y) (withContent dsc v)); [reflexivity |].
  intros t. auto.
Qed.

Lemma handleTileClick_fields (x y : Z) (st : Stamp) (g g' : GameState)
  (r : option Request) :
  handleTileClick x y st g = Ok (g', r) ->
  world g' = world g /\ player g' = player g /\ activePuzzle g' = activePuzzle g.
Proof.
  unfold handleTileClick.
  repeat match goal with
         | |- context [if ?c then _ else _] => destruct c
         | |- context [match world g !! ?k with _ => _ end] => destruct (world g !! k)
         end;
    intros H; inversion H; subst; auto.
Qed.

Lemma handlePuzzleSolve_player (gs : GameState) (success : bool) (st : Stamp)
  (g : GameState) :
  position (player (fst (handlePuzzleSolve gs success st g))) = position (player g).
Proof.
  unfold handlePuzzleSolve. destruct success, (activePuzzle gs); reflexivity.
Qed.

Lemma handlePuzzleSolve_world (gs : GameState) (st : Stamp) (g : GameState) :
  match activePuzzle gs with
  | Some _ =>
      solvedAt (tileKey (coordX (position (player gs))) (coordY (position (player gs))))
               g (fst (handlePuzzleSolve gs true st g))
  | None => world (fst (handlePuzzleSolve gs true st g)) = world g
  end.
Proof.
  unfold handlePuzzleSolve, solvedAt. destruct (activePuzzle gs); reflexivity.
Qed.

Lemma loadGame_rejected (st : Stamp) (store : Storage) (g g' : GameState) :
  loadGame st store g = (g', false) ->
  world g' = world g /\ player g' = player g /\ activePuzzle g' = activePuzzle g
  /\ isGenerating g' = isGenerating g
  /\ exists entry, logs g' = (logs g ++ [entry])%list /\ logType entry <> "success".
Proof.
  unfold loadGame. destruct store as [| |p].
  - intros H; inversion H; subst. cbn. repeat split. eexists. split; [reflexivity |].
    cbn. discriminate.
  - intros H; inversion H; subst. cbn. repeat split. eexists. split; [reflexivity |].
    cbn. discriminate.
  - destruct (savedPlayer p), (savedWorld p); intros H; inversion H; subst; cbn;
      repeat split; eexists; (split; [reflexivity | cbn; discriminate]).
Qed.

Lemma loadGame_accepted (st : Stamp) (store : Storage) (g g' : GameState) :
  loadGame st store g = (g', true) ->
  exists p pl w,
    store = Backup p /\ savedPlayer p = Some pl /\ savedWorld p = Some w
    /\ g' = addLog st "SYSTEM RESTORED FROM BACKUP. [STATE LOADED]" "success"
              (mkState pl w (savedLogs p) (savedIsGenerating p) (savedActivePuzzle p)).
Proof.
  unfold loadGame. destruct store as [| |p]; try discriminate.
  destruct (savedPlayer p) as [pl|] eqn:Hp, (savedWorld p) as [w|] eqn:Hw;
    try discriminate.
  intros H; inversion H; subst. exists p, pl, w. auto.
Qed.

End Handlers.

(** ** One step of the session *)

Section Steps.

Definition playerKey (g : GameState) : string :=
  tileKey (coordX (position (player g))) (coordY (position (player g))).

(** The event fires the timer of a correct submission. *)
Definition resolvesPuzzle (s : System) (ev : Event) (gs : GameState) : Prop :=
  exists i st p,
    ev = TimerFires i st /\ timers s !! i = Some (SolveTimer gs)
    /\ activePuzzle gs = Some p.

(** Names the state the position effect returns and states it as [fst]. *)
Ltac effect_result d :=
  match goal with
  | |- context [positionEffect d ?g0] =>
      let g' := fresh "g'" in
      let r := fresh "r" in
      let He := fresh "He" in
      destruct (positionEffect d g0) as [g' r] eqn:He;
      assert (g' = fst (positionEffect d g0)) as -> by now rewrite He
  end.

Lemma movePlayer_world (dx dy : Z) (g g' : GameState) :
  movePlayer dx dy g = Some g' -> world g' = world g.
Proof.
  unfold movePlayer. destruct (activePuzzle g); [discriminate |].
  intros H; inversion H; reflexivity.
Qed.

Lemma surrounded_keeps (g g' : GameState) :
  position (player g') = position (player g) -> keeps g g' ->
  surrounded g -> surrounded g'.
Proof.
  intros Hpos Hk Hs dx dy Hx Hy. unfold tileAt. rewrite Hpos.
  eapply keeps_is_Some; [exact Hk |]. exact (Hs dx dy Hx Hy).
Qed.

(** Every event but a load either leaves each tile's biome, puzzle flag
    and solved flag alone, or is the resolution of a puzzle, which marks
    the tile under the player of the resolving render. It keeps the player
    in place or runs the position effect, and only a save writes the
    storage. *)
Lemma handle_step (s : System) (ev : Event) :
  isLoad ev = false ->
  (evolves (game s) (game (handle ev s))
   \/ exists gs, resolvesPuzzle s ev gs
                 /\ solvedAt (playerKey gs) (game s) (game (handle ev s)))
  /\ (position (player (game (handle ev s))) = position (player (game s))
      \/ surrounded (game (handle ev s)))
  /\ (storage (handle ev s) = storage s
      \/ storage (handle ev s) = Backup (serialize (game s))).
Proof.
  intros Hload. destruct ev as [dx dy d | x y st | i reply e st | submission
                               | i st | | writeOk st | st d];
    try discriminate Hload; cbn [handle].
  - (* KeyMove *)
    destruct (movePlayer dx dy (game s)) as [g|] eqn:Hm.
    + effect_result d. cbn [game storage].
      split; [left | split; [right | left]].
      * eapply evolves_trans; [| apply positionEffect_evolves].
        apply evolves_same_world. eapply movePlayer_world; eassumption.
      * apply positionEffect_surrounded.
      * reflexivity.
    + split; [left; apply evolves_refl | auto].
  - (* TileClick *)
    destruct (handleTileClick x y st (game s)) as [[g r]|] eqn:Hc.
    + apply handleTileClick_fields in Hc as (Hw & Hp & _). cbn [game storage].
      split; [left; now apply evolves_same_world |].
      split; [left; now rewrite Hp | now left].
    + split; [left; apply evolves_refl | auto].
  - (* Reply *)
    destruct (inFlight s !! i) as [[x y b | b difficulty]|]; cbn [game storage].
    + split; [left; apply enrichFinish_evolves |].
      split; [left; now rewrite enrichFinish_player | now left].
    + split; [left; apply evolves_same_world | split; left]; try reflexivity;
        destruct (generatePuzzle b difficulty e reply); reflexivity.
    + split; [left; apply evolves_refl | auto].
  - (* Submit *)
    destruct (activePuzzle (game s)) as [p|];
      [destruct (handleSubmit p submission) as [[|]|] |];
      (split; [left; apply evolves_refl | auto]).
  - (* TimerFires *)
    destruct (timers s !! i) as [[gs | m t]|] eqn:Ht.
    + destruct (handlePuzzleSolve gs true st (game s)) as [g cues] eqn:Hs.
      cbn [game storage].
      assert (g = fst (handlePuzzleSolve gs true st (game s))) as -> by now rewrite Hs.
      pose proof (handlePuzzleSolve_world gs st (game s)) as Hw.
      split; [| split; [left; apply handlePuzzleSolve_player | now left]].
      destruct (activePuzzle gs) as [p|] eqn:Hp.
      * right. exists gs. split; [| exact Hw]. exists i, st, p. auto.
      * left. now apply evolves_same_world.
    + cbn [game storage]. split; [left; now apply evolves_same_world | auto].
    + split; [left; apply evolves_refl | auto].
  - (* ClosePuzzle *)
    cbn [game storage]. split; [left; now apply evolves_same_world | auto].
  - (* SaveClick *)
    unfold saveGame. destruct writeOk; cbn [game storage].
    + split; [left; now apply evolves_same_world | auto].
    + split; [left; now apply evolves_same_world | auto].
Qed.

Lemma handle_keeps (s : System) (ev : Event) :
  isLoad ev = false -> keeps (game s) (game (handle ev s)).
Proof.
  intros Hload. destruct (handle_step s ev Hload) as ([Hev | (gs & _ & Hs)] & _).
  - now apply evolves_keeps.
  - eapply solvedAt_keeps; eassumption.
Qed.

(** What holds of every reachable state: the player is surrounded by
    tiles, reality nodes carry a puzzle, and a snapshot in storage is
    itself such a state. *)
Definition snapshotOk (p : SavedState) : Prop :=
  exists pl w,
    savedPlayer p = Some pl /\ savedWorld p = Some w
    /\ surrounded (mkState pl w (savedLogs p) (savedIsGenerating p)
                     (savedActivePuzzle p))
    /\ worldOk w.

Definition invariant (s : System) : Prop :=
  surrounded (game s) /\ worldOk (world (game s))
  /\ forall p, storage s = Backup p -> snapshotOk p.

Lemma snapshotOk_serialize (g : GameState) :
  surrounded g -> worldOk (world g) -> snapshotOk (serialize g).
Proof.
  intros Hs Hok. exists (player g), (copyTile <$> world g).
  split; [reflexivity |]. split; [reflexivity |]. split.
  - intros dx dy Hx Hy. unfold tileAt. cbn [world player].
    rewrite lookup_fmap. destruct (Hs dx dy Hx Hy) as [t Ht].
    unfold tileAt in Ht. rewrite Ht. simpl. eauto.
  - intros k t. rewrite lookup_fmap. destruct (world g !! k) as [t0|] eqn:Hk;
      simpl; [| discriminate].
    intros H; inversion H; subst t. exact (Hok k t0 Hk).
Qed.

Lemma invariant_mount (loadTime : Z) (d : nat -> Q * Q) (store : Storage) :
  (forall p, store = Backup p -> snapshotOk p) ->
  invariant (mount loadTime d store).
Proof.
  intros Hstore. unfold mount. effect_result d.
  split; [apply positionEffect_surrounded |]. split.
  - eapply evolves_worldOk; [apply positionEffect_evolves |].
    intros k t Hk. cbn in Hk. rewrite lookup_empty in Hk. discriminate.
  - exact Hstore.
Qed.

Lemma invariant_handle (s : System) (ev : Event) :
  invariant s -> invariant (handle ev s).
Proof.
  intros (Hsur & Hok & Hsnap). destruct (isLoad ev) eqn:Hload.
  - destruct ev as [| | | | | | | st d]; try discriminate Hload. cbn [handle].
    destruct (loadGame st (storage s) (game s)) as [g [|]] eqn:Hl.
    + apply loadGame_accepted in Hl as (p & pl & w & Hst & Hp & Hw & ->).
      destruct (Hsnap p Hst) as (pl' & w' & Hp' & Hw' & Hs' & Hok').
      rewrite Hp in Hp'. rewrite Hw in Hw'. inversion Hp'; inversion Hw'; subst pl' w'.
      effect_result d.
      cbn [game storage]. split; [apply positionEffect_surrounded |]. split.
      * eapply evolves_worldOk; [apply positionEffect_evolves | exact Hok'].
      * exact Hsnap.
    + apply loadGame_rejected in Hl as (Hw & Hp & _).
      unfold invariant. cbn [game storage]. split; [| split].
      * apply (surrounded_keeps (game s) g); [now rewrite Hp | | exact Hsur].
        apply evolves_keeps. now apply evolves_same_world.
      * now rewrite Hw.
      * exact Hsnap.
  - pose proof (handle_keeps s ev Hload) as Hk.
    destruct (handle_step s ev Hload) as (Hworld & Hpos & Hstore).
    split; [| split].
    + destruct Hpos as [Hpos | Hdone]; [| exact Hdone].
      now apply (surrounded_keeps (game s) (game (handle ev s))).
    + destruct Hworld as [Hev | (gs & _ & Hs)].
      * eapply evolves_worldOk; eassumption.
      * eapply solvedAt_worldOk; eassumption.
    + intros p Hst. destruct Hstore as [Hsame | Hsaved].
      * rewrite Hsame in Hst. exact (Hsnap p Hst).
      * rewrite Hsaved in Hst. inversion Hst; subst p.
        now apply snapshotOk_serialize.
Qed.

Lemma reachable_invariant (s : System) : reachable s -> invariant s.
Proof.
  induction 1 as [loadTime d | loadTime d earlier _ IH | s ev _ IH].
  - apply invariant_mount. discriminate.
  - apply invariant_mount. apply IH.
  - now apply invariant_handle.
Qed.

End Steps.

(** ** Reachable sessions *)

Section Sessions.

Lemma reachable_run (evs : list Event) (s : System) :
  reachable s -> reachable (run evs s).
Proof.
  revert s. induction evs as [|ev evs IH]; intros s Hs; simpl; [exact Hs |].
  apply IH. now constructor.
Qed.

(** Draws that make the wasteland tile at the origin a puzzle tile and
    every other tile a wasteland tile without puzzle. *)
Definition puzzleAtOrigin : nat -> Q * Q :=
  fun k => match k with
           | 4%nat => (9 # 10, 8 # 10)%Q
           | _ => (9 # 10, 1 # 10)%Q
           end.

Definition stamp0 : Stamp := mkStamp "log" 0.

(** C10. After every operation, each of the nine coordinates within
    distance 1 of the player, diagonals included, has a tile; so a click
    on a coordinate at Manhattan distance at most 1 finds its tile and
    does not throw. In any state at all, a click further away returns in
    the out-of-range branch, whether the clicked tile exists or not. *)
Theorem C10_player_surrounded (s : System) :
  reachable s ->
  surrounded (game s)
  /\ (forall x y st,
        Z.abs (x - coordX (position (player (game s))))
        + Z.abs (y - coordY (position (player (game s)))) <= 1 ->
        exists g r, handleTileClick x y st (game s) = Ok (g, r))
  /\ (forall (g : GameState) x y st,
        1 < Z.abs (x - coordX (position (player g)))
            + Z.abs (y - coordY (position (player g))) ->
        handleTileClick x y st g
        = Ok (addLog st "Target out of range." "warning" g, None)).
Proof.
  intros Hr. destruct (reachable_invariant s Hr) as (Hsur & _).
  split; [exact Hsur |]. split.
  - intros x y st Hdist. unfold handleTileClick.
    destruct (Z.ltb_spec 1 (Z.abs (x - coordX (position (player (game s))))
                            + Z.abs (y - coordY (position (player (game s))))))
      as [Hfar | _]; [lia |].
    destruct (Hsur (x - coordX (position (player (game s))))
                   (y - coordY (position (player (game s))))) as [t Ht]; [lia | lia |].
    unfold tileAt in Ht.
    replace (coordX (position (player (game s)))
             + (x - coordX (position (player (game s))))) with x in Ht by lia.
    replace (coordY (position (player (game s)))
             + (y - coordY (position (player (game s))))) with y in Ht by lia.
    rewrite Ht.
    destruct (flag (hasPuzzle t) && negb (flag (isSolved t)));
      [destruct (_ =? 0) |]; eauto.
  - intros g x y st Hfar. unfold handleTileClick.
    destruct (Z.ltb_spec 1 (Z.abs (x - coordX (position (player g)))
                            + Z.abs (y - coordY (position (player g)))));
      [reflexivity | lia].
Qed.

Lemma C10_player_surrounded_witness :
  reachable (mount 0 puzzleAtOrigin NoBackup)
  /\ surrounded (game (mount 0 puzzleAtOrigin NoBackup))
  /\ exists g r, handleTileClick 0 1 stamp0 (game (mount 0 puzzleAtOrigin NoBackup)) = Ok (g, r).
Proof.
  pose proof (C10_player_surrounded (mount 0 puzzleAtOrigin NoBackup)
                (reachable_mount 0 puzzleAtOrigin)) as (Hs & Hc & _).
  split; [apply reachable_mount |]. split; [exact Hs |].
  apply Hc. vm_compute. discriminate.
Defined.

(** Draws that make every tile a reality node. *)
Definition allRealityNodes : nat -> Q * Q := fun _ => (1 # 10, 1 # 10)%Q.

(** A session on wasteland tiles is saved; the page is opened again and
    draws reality nodes; then the save is loaded. *)
Definition reopened : System :=
  mount 1 allRealityNodes
    (storage (handle (SaveClick true stamp0) (mount 0 puzzleAtOrigin NoBackup))).

Lemma reopened_reachable : reachable reopened.
Proof. apply reachable_reopen, reachable_handle, reachable_mount. Qed.

(** The load changes the biome and the puzzle flag of the tile at the
    origin, which existed before it. *)
Lemma C5_load_replaces_tiles :
  reachable reopened
  /\ (biome <$> tileAt 0 0 (game reopened)) = Some (Some REALITY_NODE)
  /\ (hasPuzzle <$> tileAt 1 0 (game reopened)) = Some (Some true)
  /\ (biome <$> tileAt 0 0 (game (handle (LoadClick stamp0 allRealityNodes) reopened)))
     = Some (Some DATA_WASTELAND)
  /\ (hasPuzzle <$> tileAt 1 0 (game (handle (LoadClick stamp0 allRealityNodes) reopened)))
     = Some (Some false).
Proof.
  split; [exact reopened_reachable |]. repeat split; vm_compute; reflexivity.
Qed.

(** C5, as the code has it. [ensureTileExists] on a coordinate whose tile
    exists returns the state as it is, so a second call redraws nothing
    of the first: same tile, same biome, puzzle flag and solved flag.
    Every event but a load keeps every tile, with its biome and its puzzle
    flag. A load that is accepted puts the saved tiles in the place of
    the current ones. *)
Theorem C5_ensureTile_idempotent (g : GameState) (x y : Z) (r r' : Q * Q)
  (s : System) (ev : Event) :
  reachable s ->
  ensureTileExists x y r' (ensureTileExists x y r g) = ensureTileExists x y r g
  /\ tileAt x y (ensureTileExists x y r' (ensureTileExists x y r g))
     = tileAt x y (ensureTileExists x y r g)
  /\ is_Some (tileAt x y (ensureTileExists x y r g))
  /\ (is_Some (tileAt x y g) -> ensureTileExists x y r g = g)
  /\ (isLoad ev = false ->
      forall k t, world (game s) !! k = Some t ->
        exists t', world (game (handle ev s)) !! k = Some t'
                   /\ biome t' = biome t /\ hasPuzzle t' = hasPuzzle t)
  /\ (forall st d p w,
        ev = LoadClick st d -> storage s = Backup p -> savedWorld p = Some w ->
        world (game (handle ev s)) = w).
Proof.
  intros Hr.
  assert (ensureTileExists x y r' (ensureTileExists x y r g) = ensureTileExists x y r g)
    as Hidem by (apply ensureTileExists_present, ensureTileExists_creates).
  split; [exact Hidem |]. split; [now rewrite Hidem |].
  split; [apply ensureTileExists_creates |].
  split; [apply ensureTileExists_present |]. split.
  - intros Hload k t Hk.
    destruct (handle_keeps s ev Hload k t Hk) as (t' & H1 & H2 & H3 & _). eauto.
  - intros st d p w -> Hst Hw.
    destruct (reachable_invariant s Hr) as (_ & _ & Hsnap).
    destruct (Hsnap p Hst) as (pl & w' & Hp & Hw' & Hs' & _).
    rewrite Hw in Hw'. inversion Hw'; subst w'.
    cbn [handle]. unfold loadGame. rewrite Hst, Hp, Hw.
    match goal with
    | |- context [positionEffect d ?g0] =>
        pose proof (positionEffect_world_surrounded d g0 Hs') as Hsame;
        destruct (positionEffect d g0) as [g' req]
    end.
    exact Hsame.
Qed.

Lemma C5_ensureTile_idempotent_witness :
  reachable (mount 0 puzzleAtOrigin NoBackup)
  /\ ensureTileExists 0 0 (1 # 10, 9 # 10)%Q
       (ensureTileExists 0 0 (9 # 10, 8 # 10)%Q (initialState 0))
     = ensureTileExists 0 0 (9 # 10, 8 # 10)%Q (initialState 0).
Proof.
  split; [apply reachable_mount |].
  apply (C5_ensureTile_idempotent (initialState 0) 0 0 (9 # 10, 8 # 10)%Q
           (1 # 10, 9 # 10)%Q (mount 0 puzzleAtOrigin NoBackup) ClosePuzzle
           (reachable_mount 0 puzzleAtOrigin)).
Defined.

End Sessions.

(** ** Solved flags and the movement lock *)

Section PendingPuzzle.

Definition env0 : Env := mkEnv "puzzle-0" 2026 0%Q (fun _ => 0%Q).

(** The player interacts with the puzzle tile at the origin. *)
Definition pendingSystem : System :=
  run [TileClick 0 0 stamp0] (mount 0 puzzleAtOrigin NoBackup).

(** ... steps right while the puzzle is being generated, receives the
    puzzle (the fallback, answer "4"), answers it, and the timer of the
    correct answer fires. *)
Definition strayResolution : System :=
  run [KeyMove 1 0 puzzleAtOrigin; Reply 1%nat Rejected env0 stamp0; Submit "4";
       TimerFires 0%nat stamp0] pendingSystem.

Lemma pendingSystem_reachable : reachable pendingSystem.
Proof. apply (reachable_run [TileClick 0 0 stamp0]), reachable_mount. Qed.

Lemma strayResolution_reachable : reachable strayResolution.
Proof. unfold strayResolution. apply reachable_run, pendingSystem_reachable. Qed.


(** Nor is the solved flag safe from a load: saved before the resolution,
    the tile at the origin comes back unsolved. *)
Definition solvedThenLoaded : System * System :=
  let solved :=
    run [SaveClick true stamp0; TileClick 0 0 stamp0; Reply 1%nat Rejected env0 stamp0;
         Submit "4"; TimerFires 0%nat stamp0] (mount 0 puzzleAtOrigin NoBackup) in
  (solved, handle (LoadClick stamp0 puzzleAtOrigin) solved).

Lemma load_restores_unsolved :
  (isSolved <$> tileAt 0 0 (game (fst solvedThenLoaded))) = Some (Some true)
  /\ (isSolved <$> tileAt 0 0 (game (snd solvedThenLoaded))) = Some (Some false).
Proof. split; vm_compute; reflexivity. Qed.



(** While the puzzle is being generated the engine is not idle, and yet
    a move goes through. *)
Lemma C3_move_while_pending :
  reachable pendingSystem
  /\ Pending pendingSystem /\ ~ Idle pendingSystem
  /\ position (player (game pendingSystem)) = mkCoord 0 0
  /\ position (player (game (handle (KeyMove 1 0 puzzleAtOrigin) pendingSystem)))
     = mkCoord 1 0.
Proof.
  assert (Pending pendingSystem) as Hp.
  { exists (Some DATA_WASTELAND), 1. vm_compute. right. left. reflexivity. }
  split; [exact pendingSystem_reachable |].
  split; [exact Hp |]. split; [intros [_ Hn]; exact (Hn Hp) |].
  split; vm_compute; reflexivity.
Qed.

(** C3, as the code has it. A move is rejected, the whole session left as
    it is, exactly while a puzzle is attached. Otherwise, idle or with a
    puzzle generation in flight, it translates the position by the delta,
    whatever the integers. *)
Theorem C3_move_lock (s : System) (dx dy : Z) (d : nat -> Q * Q) :
  (Active s -> handle (KeyMove dx dy d) s = s)
  /\ (~ Active s ->
        position (player (game (handle (KeyMove dx dy d) s)))
        = mkCoord (coordX (position (player (game s))) + dx)
                  (coordY (position (player (game s))) + dy))
  /\ (Idle s ->
        position (player (game (handle (KeyMove dx dy d) s)))
        = mkCoord (coordX (position (player (game s))) + dx)
                  (coordY (position (player (game s))) + dy)).
Proof.
  assert (~ Active s ->
          position (player (game (handle (KeyMove dx dy d) s)))
          = mkCoord (coordX (position (player (game s))) + dx)
                    (coordY (position (player (game s))) + dy)) as Hmove.
  { unfold Active. intros Hn. cbn [handle]. unfold movePlayer.
    destruct (activePuzzle (game s)) as [p|]; [exfalso; apply Hn; discriminate |].
    match goal with
    | |- context [positionEffect d ?g0] =>
        pose proof (positionEffect_player d g0) as Hp;
        destruct (positionEffect d g0) as [g' r]
    end.
    cbn [game fst] in *. now rewrite Hp. }
  split; [| split; [exact Hmove | intros [Hn _]; exact (Hmove Hn)]].
  unfold Active. intros Ha. cbn [handle]. unfold movePlayer.
  destruct (activePuzzle (game s)); [reflexivity | contradiction].
Qed.

Lemma C3_move_lock_witness :
  ~ Active pendingSystem
  /\ position (player (game (handle (KeyMove 0 (-1) puzzleAtOrigin) pendingSystem)))
     = mkCoord 0 (-1).
Proof.
  assert (~ Active pendingSystem) as Hn by (intros H; apply H; reflexivity).
  split; [exact Hn |].
  exact (proj1 (proj2 (C3_move_lock pendingSystem 0 (-1) puzzleAtOrigin)) Hn).
Defined.

End PendingPuzzle.

(** ** Enrichment *)

Section Enrichment.







End Enrichment.

(** ** Save and load *)

Section JsonCopy.

Lemma jsonCopy_array (l : list JsValue) :
  jsonCopy (JArr l)
  = JArr (List.map (fun x => if isUndefined x then JNull else jsonCopy x) l).
Proof.
  cbn [jsonCopy]. f_equal. induction l as [|x rest IH]; [reflexivity |].
  cbn [List.map]. rewrite <- IH. destruct x; reflexivity.
Qed.

Lemma jsonCopy_object (fs : list (string * JsValue)) :
  jsonCopy (JObj fs)
  = JObj (List.map (fun kv => (fst kv, jsonCopy (snd kv)))
            (List.filter (fun kv => negb (isUndefined (snd kv))) fs)).
Proof.
  cbn [jsonCopy]. f_equal. induction fs as [|[k x] rest IH]; [reflexivity |].
  cbn [List.filter List.map fst snd]. destruct x; cbn [isUndefined negb List.map fst snd];
    rewrite <- IH; reflexivity.
Qed.

Lemma jsonClean_array (l : list JsValue) :
  jsonClean (JArr l) = forallb (fun x => negb (isUndefined x) && jsonClean x) l.
Proof.
  cbn [jsonClean]. induction l as [|x rest IH]; [reflexivity |].
  cbn [forallb]. now rewrite <- IH.
Qed.

Lemma jsonClean_object (fs : list (string * JsValue)) :
  jsonClean (JObj fs)
  = forallb (fun kv => negb (isUndefined (snd kv)) && jsonClean (snd kv)) fs.
Proof.
  cbn [jsonClean]. induction fs as [|[k x] rest IH]; [reflexivity |].
  cbn [forallb snd]. now rewrite <- IH.
Qed.

(** Induction on values, with the hypothesis available for the elements
    of an array and the fields of an object. *)
Fixpoint JsValue_nested_ind (P : JsValue -> Prop)
  (Hundef : P JUndefined) (Hnull : P JNull) (Hbool : forall b, P (JBool b))
  (Hnum : forall n, P (JNum n)) (Hstr : forall s, P (JStr s))
  (Harr : forall l, Forall P l -> P (JArr l))
  (Hobj : forall fs, Forall (fun kv => P (snd kv)) fs -> P (JObj fs))
  (v : JsValue) {struct v} : P v :=
  match v with
  | JUndefined => Hundef
  | JNull => Hnull
  | JBool b => Hbool b
  | JNum n => Hnum n
  | JStr s => Hstr s
  | JArr l =>
      Harr l ((fix all (l : list JsValue) : Forall P l :=
                 match l with
                 | [] => @List.Forall_nil _ _
                 | x :: rest =>
                     @List.Forall_cons _ _ x _
                       (JsValue_nested_ind P Hundef Hnull Hbool Hnum Hstr Harr Hobj x)
                       (all rest)
                 end) l)
  | JObj fs =>
      Hobj fs ((fix all (fs : list (string * JsValue))
                  : Forall (fun kv => P (snd kv)) fs :=
                  match fs with
                  | [] => @List.Forall_nil _ _
                  | kv :: rest =>
                      @List.Forall_cons _ _ kv _
                        (JsValue_nested_ind P Hundef Hnull Hbool Hnum Hstr Harr Hobj
                           (snd kv))
                        (all rest)
                  end) fs)
  end.

(** A value without [undefined] inside survives the trip through JSON. *)
Lemma jsonCopy_clean (v : JsValue) : jsonClean v = true -> jsonCopy v = v.
Proof.
  induction v as [| | b | n | s | l IH | fs IH] using JsValue_nested_ind;
    try reflexivity.
  - rewrite jsonClean_array, jsonCopy_array. intros Hc. f_equal.
    induction IH as [|x rest Hx _ IHrest]; [reflexivity |].
    cbn [forallb] in Hc. apply andb_true_iff in Hc as [Hx' Hrest].
    apply andb_true_iff in Hx' as [Hu Hcx]. apply negb_true_iff in Hu.
    cbn [List.map]. rewrite Hu, (Hx Hcx), (IHrest Hrest). reflexivity.
  - rewrite jsonClean_object, jsonCopy_object. intros Hc. f_equal.
    induction IH as [|[k x] rest Hx _ IHrest]; [reflexivity |].
    cbn [forallb snd] in Hc, Hx. apply andb_true_iff in Hc as [Hx' Hrest].
    apply andb_true_iff in Hx' as [Hu Hcx].
    cbn [List.filter snd]. rewrite Hu. cbn [List.map fst snd].
    rewrite (Hx Hcx), (IHrest Hrest). reflexivity.
Qed.

Lemma copyTile_clean (t : TileData) : cleanTile t -> copyTile t = t.
Proof.
  intros [Hd Hv]. unfold copyTile, withContent.
  rewrite (jsonCopy_clean _ Hd), (jsonCopy_clean _ Hv). now destruct t.
Qed.

Lemma copyPuzzle_clean (p : Puzzle) : cleanPuzzle p -> copyPuzzle p = p.
Proof.
  intros (Hq & Ht & Ho & Ha). unfold copyPuzzle.
  rewrite (jsonCopy_clean _ Hq), (jsonCopy_clean _ Ht), (jsonCopy_clean _ Ho),
    (jsonCopy_clean _ Ha).
  now destruct p.
Qed.

End JsonCopy.

Section SaveLoad.

Definition restoredEntry (st : Stamp) : GameLog :=
  mkLog (stampId st) (stampTime st) "SYSTEM RESTORED FROM BACKUP. [STATE LOADED]"
        "success".


Definition roundTrip (st1 st2 : Stamp) (store : Storage) (g : GameState)
  : GameState * bool :=
  let saved := saveGame true st1 g store in
  loadGame st2 (snd saved) (fst saved).


(** A grounded puzzle built from an answer without correctAnswer has an
    [undefined] option, which JSON writes as [null]. *)
Lemma undefined_option_saved_as_null :
  let reply := Replied (mkResponse (TextJson (JObj [("question", JStr "Q")])) None) in
  exists p, generatePuzzle (Some REALITY_NODE) 1 env0 reply = Ok p
            /\ options p = JArr [JUndefined]
            /\ options (copyPuzzle p) = JArr [JNull].
Proof. eexists. split; [reflexivity |]. split; reflexivity. Qed.



End SaveLoad.

(** * Further properties of the code *)

Import GameMap.

(** ** Tile keys *)

Section TileKeys.

Fixpoint commaFree (s : string) : bool :=
  match s with
  | EmptyString => true
  | String c s' => negb (Ascii.eqb c ",") && commaFree s'
  end.

Lemma commaFree_uint (d : Decimal.uint) :
  commaFree (NilEmpty.string_of_uint d) = true.
Proof. induction d; simpl; auto. Qed.

Lemma commaFree_stringOfZ (n : Z) : commaFree (stringOfZ n) = true.
Proof.
  unfold stringOfZ, NilZero.string_of_int, NilZero.string_of_uint.
  destruct (Z.to_int n) as [d|d]; destruct d; simpl; auto using commaFree_uint;
    apply (commaFree_uint (_ _)).
Qed.

Lemma stringOfZ_inj (n m : Z) : stringOfZ n = stringOfZ m -> n = m.
Proof.
  unfold stringOfZ. intros H. apply DecimalZ.to_int_inj.
  assert (forall z, NilZero.int_of_string (NilZero.string_of_int (Z.to_int z))
                    = Some (Z.to_int z)) as Hparse.
  { intros z. apply NilZero.isi; destruct z; simpl; try discriminate;
      intros Hn; inversion Hn as [Hp]; exact (DecimalPos.Unsigned.to_uint_nonnil _ Hp). }
  pose proof (Hparse n) as Hn. rewrite H, Hparse in Hn. now inversion Hn.
Qed.

Lemma comma_split (s1 s2 t1 t2 : string) :
  commaFree s1 = true -> commaFree s2 = true ->
  s1 ++ "," ++ t1 = s2 ++ "," ++ t2 -> s1 = s2 /\ t1 = t2.
Proof.
  revert s2. induction s1 as [|c s1 IH]; intros [|c2 s2] H1 H2 H; simpl in *.
  - inversion H. auto.
  - inversion H; subst c2. rewrite Ascii.eqb_refl in H2. discriminate.
  - inversion H; subst c. rewrite Ascii.eqb_refl in H1. discriminate.
  - apply andb_true_iff in H1 as [_ H1]. apply andb_true_iff in H2 as [_ H2].
    inversion H; subst c2. destruct (IH s2 H1 H2) as [-> ->]; auto.
Qed.

Lemma tileKey_inj (x y x' y' : Z) :
  tileKey x y = tileKey x' y' -> x = x' /\ y = y'.
Proof.
  unfold tileKey. intros H.
  apply comma_split in H as [Hx Hy]; try apply commaFree_stringOfZ.
  split; now apply stringOfZ_inj.
Qed.

(** X1. The key [`${x},${y}`] tells the coordinates apart: two
    coordinates with the same key are the same, so no two cells of the
    grid share a tile, and a tile written at one coordinate is not read
    at another. *)
Theorem tileKey_injective (x y x' y' : Z) (t : TileData) (w : gmap string TileData) :
  (tileKey x y = tileKey x' y' <-> x = x' /\ y = y')
  /\ ((x, y) <> (x', y') -> <[tileKey x y := t]> w !! tileKey x' y' = w !! tileKey x' y').
Proof.
  split.
  - split; [apply tileKey_inj | intros [-> ->]; reflexivity].
  - intros Hne. apply lookup_insert_ne. intros Hk.
    apply tileKey_inj in Hk as [-> ->]. now apply Hne.
Qed.

End TileKeys.

(** ** Tile generation around the player *)

Section Generation.

(** A tile as [ensureTileExists] creates it at [(x, y)]. *)
Definition freshTile (x y : Z) (t : TileData) : Prop :=
  tileId t = Some (tileKey x y) /\ tileX t = Some x /\ tileY t = Some y
  /\ description t = JStr "Scanning..." /\ visualFeature t = JStr "..."
  /\ explored t = Some false /\ isSolved t = Some false
  /\ (exists b, biome t = Some b)
  /\ (exists h, hasPuzzle t = Some h).

Lemma ensureTileExists_old (x y : Z) (r : Q * Q) (g : GameState) (k : string)
  (t : TileData) :
  world g !! k = Some t -> world (ensureTileExists x y r g) !! k = Some t.
Proof.
  intros Hk. unfold ensureTileExists.
  destruct (world g !! tileKey x y) eqn:Hxy; [exact Hk |].
  cbn [world withWorld]. rewrite lookup_insert_ne; [exact Hk |]. congruence.
Qed.

Lemma ensureTileExists_new (x y : Z) (r : Q * Q) (g : GameState) (k : string)
  (t : TileData) :
  world g !! k = None -> world (ensureTileExists x y r g) !! k = Some t ->
  k = tileKey x y /\ freshTile x y t.
Proof.
  intros Hk. unfold ensureTileExists.
  destruct (world g !! tileKey x y) eqn:Hxy; [congruence |].
  cbn [world withWorld]. destruct (decide (tileKey x y = k)) as [<-|Hne].
  - rewrite lookup_insert_eq. intros H; inversion H; subst t.
    split; [reflexivity |]. unfold freshTile. cbn. repeat split; eauto.
  - rewrite lookup_insert_ne by exact Hne. congruence.
Qed.

Lemma ensureAll_old (x y : Z) (d : nat -> Q * Q) (os : list (Z * Z)) (n : nat)
  (g : GameState) (k : string) (t : TileData) :
  world g !! k = Some t -> world (ensureAll x y d n os g) !! k = Some t.
Proof.
  revert n g. induction os as [|[dx dy] rest IH]; intros n g Hk; simpl; [exact Hk |].
  apply IH. now apply ensureTileExists_old.
Qed.

Lemma ensureAll_new (x y : Z) (d : nat -> Q * Q) (os : list (Z * Z)) (n : nat)
  (g : GameState) (k : string) (t : TileData) :
  world g !! k = None -> world (ensureAll x y d n os g) !! k = Some t ->
  exists dx dy, In (dx, dy) os /\ k = tileKey (x + dx) (y + dy)
                /\ freshTile (x + dx) (y + dy) t.
Proof.
  revert n g. induction os as [|[dx dy] rest IH]; intros n g Hk Ht; simpl in *.
  - congruence.
  - destruct (world (ensureTileExists (x + dx) (y + dy) (d n) g) !! k) as [t0|] eqn:H0.
    + pose proof (ensureAll_old x y d rest (S n) _ k t0 H0) as Hkeep.
      rewrite Hkeep in Ht. inversion Ht; subst t0.
      destruct (ensureTileExists_new _ _ _ _ _ _ Hk H0) as [-> Hf].
      exists dx, dy. auto.
    + destruct (IH (S n) _ H0 Ht) as (dx' & dy' & Hin & Hkey & Hf).
      exists dx', dy'. auto.
Qed.

Lemma ensureAll_fields (x y : Z) (d : nat -> Q * Q) (os : list (Z * Z)) (n : nat)
  (g : GameState) :
  logs (ensureAll x y d n os g) = logs g
  /\ activePuzzle (ensureAll x y d n os g) = activePuzzle g
  /\ isGenerating (ensureAll x y d n os g) = isGenerating g.
Proof.
  revert n g. induction os as [|[dx dy] rest IH]; intros n g; simpl; [auto |].
  destruct (IH (S n) (ensureTileExists (x + dx) (y + dy) (d n) g)) as (Hl & Ha & Hg).
  rewrite Hl, Ha, Hg. unfold ensureTileExists.
  destruct (world g !! tileKey (x + dx) (y + dy)); auto.
Qed.

(** X2. The position effect only fills gaps in the three by three block
    around the player: a tile that exists is left exactly as it is, a tile
    that appears is a fresh one (pending text, unexplored, unsolved) at
    one of the nine coordinates, and a coordinate outside the block reads
    after the effect as it did before. Player, log and attached puzzle
    are untouched. *)
Theorem positionEffect_fills_block (d : nat -> Q * Q) (g : GameState) :
  let g' := fst (positionEffect d g) in
  let px := coordX (position (player g)) in
  let py := coordY (position (player g)) in
  (forall k t, world g !! k = Some t -> world g' !! k = Some t)
  /\ (forall k t, world g !! k = None -> world g' !! k = Some t ->
        exists dx dy, -1 <= dx <= 1 /\ -1 <= dy <= 1
                      /\ k = tileKey (px + dx) (py + dy)
                      /\ freshTile (px + dx) (py + dy) t)
  /\ (forall x y, ~ (Z.abs (x - px) <= 1 /\ Z.abs (y - py) <= 1) ->
        tileAt x y g' = tileAt x y g)
  /\ player g' = player g /\ logs g' = logs g /\ activePuzzle g' = activePuzzle g.
Proof.
  cbn zeta.
  assert (forall k t, world g !! k = None ->
            world (fst (positionEffect d g)) !! k = Some t ->
            exists dx dy, -1 <= dx <= 1 /\ -1 <= dy <= 1
              /\ k = tileKey (coordX (position (player g)) + dx)
                             (coordY (position (player g)) + dy)
              /\ freshTile (coordX (position (player g)) + dx)
                           (coordY (position (player g)) + dy) t) as Hnew.
  { intros k t Hk. rewrite positionEffect_world. intros Ht.
    destruct (ensureAll_new _ _ _ _ _ _ _ _ Hk Ht) as (dx & dy & Hin & Hkey & Hf).
    apply offsets_range in Hin as [Hx Hy]. exists dx, dy. auto. }
  assert (forall k t, world g !! k = Some t ->
            world (fst (positionEffect d g)) !! k = Some t) as Hold.
  { intros k t Hk. rewrite positionEffect_world. now apply ensureAll_old. }
  split; [exact Hold |]. split; [exact Hnew |]. split.
  - intros x y Hfar. unfold tileAt.
    destruct (world g !! tileKey x y) as [t|] eqn:Hk; [now apply Hold |].
    destruct (world (fst (positionEffect d g)) !! tileKey x y) as [t|] eqn:Hk';
      [| reflexivity].
    exfalso. destruct (Hnew _ _ Hk Hk') as (dx & dy & Hx & Hy & Hkey & _).
    apply tileKey_inj in Hkey as [-> ->]. apply Hfar. lia.
  - split; [apply positionEffect_player |].
    unfold positionEffect.
    match goal with
    | |- context [enrichStart ?x ?y ?g0] =>
        destruct (enrichStart_fields x y g0) as (_ & _ & Ha & Hl)
    end.
    rewrite Hl, Ha. split; apply ensureAll_fields.
Qed.

End Generation.

(** ** Interaction *)

Section Interaction.

Definition distanceTo (x y : Z) (g : GameState) : Z :=
  Z.abs (x - coordX (position (player g))) + Z.abs (y - coordY (position (player g))).

Lemma handleTileClick_present (x y : Z) (st : Stamp) (g : GameState) (t : TileData) :
  tileAt x y g = Some t ->
  exists g' r, handleTileClick x y st g = Ok (g', r).
Proof.
  unfold tileAt, handleTileClick. intros ->.
  repeat match goal with
         | |- context [if ?c then _ else _] => destruct c
         end; eauto.
Qed.

(** X3. A click on an existing tile never changes the world, the player
    or the attached puzzle, and logs exactly one line. It asks for a
    puzzle exactly when the player stands on the clicked tile and the tile
    has an unsolved puzzle; the request carries the tile's biome and the
    player's level, and the busy flag is raised. Further away it only
    warns: out of range beyond distance 1, move closer at distance 1 from
    an unsolved puzzle. *)
Theorem handleTileClick_outcomes (x y : Z) (st : Stamp) (g : GameState) (t : TileData) :
  tileAt x y g = Some t ->
  exists g' r entry,
    handleTileClick x y st g = Ok (g', r)
    /\ world g' = world g /\ player g' = player g /\ activePuzzle g' = activePuzzle g
    /\ logs g' = (logs g ++ [entry])%list
    /\ (r <> None <-> distanceTo x y g = 0 /\ puzzleIndicator t = true)
    /\ (r <> None ->
          r = Some (PuzzleRequest (biome t) (level (player g)))
          /\ isGenerating g' = true)
    /\ (r = None -> isGenerating g' = isGenerating g)
    /\ (1 < distanceTo x y g ->
          message entry = "Target out of range." /\ logType entry = "warning")
    /\ (distanceTo x y g = 1 -> puzzleIndicator t = true ->
          message entry = "Move closer to interface." /\ logType entry = "warning").
Proof.
  unfold tileAt, distanceTo, puzzleIndicator. intros Ht.
  unfold handleTileClick. rewrite Ht.
  pose proof (Z.abs_nonneg (x - coordX (position (player g)))) as Hx.
  pose proof (Z.abs_nonneg (y - coordY (position (player g)))) as Hy.
  set (dist := Z.abs (x - coordX (position (player g)))
               + Z.abs (y - coordY (position (player g)))) in *.
  destruct (Z.ltb_spec 1 dist) as [Hfar | Hnear].
  - do 3 eexists. split; [reflexivity |]. cbn.
    repeat split; try reflexivity; try congruence; try lia;
      intros []; try congruence; lia.
  - destruct (flag (hasPuzzle t) && negb (flag (isSolved t))) eqn:Hp.
    + destruct (Z.eqb_spec dist 0) as [H0 | Hn0].
      * do 3 eexists. split; [reflexivity |]. cbn.
        repeat split; try reflexivity; try congruence; try lia.
      * do 3 eexists. split; [reflexivity |]. cbn.
        repeat split; try reflexivity; try congruence; try lia;
          intros []; try congruence; lia.
    + do 3 eexists. split; [reflexivity |]. cbn.
      repeat split; try reflexivity; try congruence; try lia;
        intros []; congruence.
Qed.

Lemma handleTileClick_outcomes_witness :
  exists g' r entry,
    handleTileClick 0 0 stamp0 (game (mount 0 puzzleAtOrigin NoBackup)) = Ok (g', r)
    /\ r = Some (PuzzleRequest (Some DATA_WASTELAND) 1)
    /\ logs g' = (logs (game (mount 0 puzzleAtOrigin NoBackup)) ++ [entry])%list.
Proof.
  destruct (handleTileClick_outcomes 0 0 stamp0 (game (mount 0 puzzleAtOrigin NoBackup))
              _ eq_refl)
    as (g' & r & entry & Hc & _ & _ & _ & Hl & Hiff & Hreq & _).
  exists g', r, entry. split; [exact Hc |]. split; [| exact Hl].
  apply Hreq. apply Hiff. split; reflexivity.
Defined.

End Interaction.

(** ** The map *)

Section Map.

Lemma viewportRange_spec (k : Z) :
  In k viewportRange <-> - VIEWPORT_RADIUS <= k <= VIEWPORT_RADIUS.
Proof.
  unfold viewportRange, VIEWPORT_RADIUS. rewrite <- list_elem_of_In, elem_of_seqZ. lia.
Qed.

Lemma visibleTiles_In (pos : Coordinates) (w : gmap string TileData) (v : VisibleTile) :
  In v (visibleTiles pos w) <->
  Z.abs (visibleX v - coordX pos) <= VIEWPORT_RADIUS
  /\ Z.abs (visibleY v - coordY pos) <= VIEWPORT_RADIUS
  /\ data v = w !! tileKey (visibleX v) (visibleY v).
Proof.
  unfold visibleTiles. rewrite in_flat_map. split.
  - intros (dy & Hdy & Hv). apply in_map_iff in Hv as (dx & <- & Hdx).
    apply viewportRange_spec in Hdy, Hdx. cbn [visibleX visibleY data].
    unfold VIEWPORT_RADIUS in *. repeat split; lia.
  - intros (Hx & Hy & Hd). exists (visibleY v - coordY pos). split.
    + apply viewportRange_spec. unfold VIEWPORT_RADIUS in *. lia.
    + apply in_map_iff. exists (visibleX v - coordX pos). split.
      * destruct v as [vx vy vd]. cbn [visibleX visibleY data] in *. subst vd.
        f_equal; [lia | lia | f_equal; f_equal; lia].
      * apply viewportRange_spec. unfold VIEWPORT_RADIUS in *. lia.
Qed.

(** The position of a cell in the list, row after row. *)
Lemma visibleTiles_position (pos : Coordinates) (w : gmap string TileData) (i : nat)
  (v : VisibleTile) :
  nth_error (visibleTiles pos w) i = Some v ->
  Z.of_nat i = (visibleY v - coordY pos + 4) * 9 + (visibleX v - coordX pos + 4).
Proof.
  destruct pos as [px py], v as [vx vy vd]. cbn [coordX coordY visibleX visibleY].
  do 81 (destruct i as [|i];
         [intros H; apply (f_equal (fun o => match o with
                                             | Some u => (visibleX u, visibleY u)
                                             | None => (0, 0)
                                             end)) in H;
          simpl in H; injection H as <- <-; unfold VIEWPORT_RADIUS; lia |]).
  intros H. destruct i; discriminate H.
Qed.

(** X4. The map shows the nine by nine window around the player: 81
    cells, a cell for a coordinate exactly when it is within four columns
    and four rows of the player, each coordinate once, each with the tile
    the world holds there (or none). The player's cell is the middle one,
    and every cell lies inside the viewport square. *)
Theorem visibleTiles_window (pos : Coordinates) (w : gmap string TileData) :
  List.length (visibleTiles pos w) = 81%nat
  /\ (forall x y,
        (exists v, In v (visibleTiles pos w) /\ visibleX v = x /\ visibleY v = y)
        <-> Z.abs (x - coordX pos) <= 4 /\ Z.abs (y - coordY pos) <= 4)
  /\ (forall v, In v (visibleTiles pos w) ->
        data v = w !! tileKey (visibleX v) (visibleY v))
  /\ (forall i j vi vj,
        nth_error (visibleTiles pos w) i = Some vi ->
        nth_error (visibleTiles pos w) j = Some vj ->
        visibleX vi = visibleX vj -> visibleY vi = visibleY vj -> i = j)
  /\ nth_error (visibleTiles pos w) 40
     = Some (mkVisible (coordX pos) (coordY pos)
               (w !! tileKey (coordX pos) (coordY pos)))
  /\ (forall v, In v (visibleTiles pos w) ->
        0 <= relX pos (visibleX v) <= viewportSize - TILE_SIZE
        /\ 0 <= relY pos (visibleY v) <= viewportSize - TILE_SIZE).
Proof.
  split; [reflexivity |]. split; [| split; [| split; [| split]]].
  - intros x y. split.
    + intros (v & Hv & <- & <-). apply visibleTiles_In in Hv. tauto.
    + intros [Hx Hy]. exists (mkVisible x y (w !! tileKey x y)).
      split; [| auto]. apply visibleTiles_In. auto.
  - intros v Hv. now apply visibleTiles_In in Hv.
  - intros i j vi vj Hi Hj Hx Hy.
    apply visibleTiles_position in Hi, Hj. lia.
  - change (nth_error (visibleTiles pos w) 40)
      with (Some (mkVisible (coordX pos + 0) (coordY pos + 0)
                    (w !! tileKey (coordX pos + 0) (coordY pos + 0)))).
    now rewrite !Z.add_0_r.
  - intros v Hv. apply visibleTiles_In in Hv as (Hx & Hy & _).
    unfold relX, relY, viewportSize, VIEWPORT_RADIUS, TILE_SIZE in *. lia.
Qed.

(** X5. The map reports a click exactly for the coordinates of its
    window that hold a tile, so a click coming from the map always finds
    its tile: in any state whatever, [handleTileClick] on such a click
    returns and does not throw. *)
Theorem map_clicks_find_their_tile (g : GameState) (x y : Z) (st : Stamp) :
  (In (x, y) (clickTargets (position (player g)) (world g)) <->
     Z.abs (x - coordX (position (player g))) <= 4
     /\ Z.abs (y - coordY (position (player g))) <= 4
     /\ is_Some (tileAt x y g))
  /\ (In (x, y) (clickTargets (position (player g)) (world g)) ->
      exists g' r, handleTileClick x y st g = Ok (g', r)).
Proof.
  assert (In (x, y) (clickTargets (position (player g)) (world g)) <->
          Z.abs (x - coordX (position (player g))) <= 4
          /\ Z.abs (y - coordY (position (player g))) <= 4
          /\ is_Some (tileAt x y g)) as Hiff.
  { unfold clickTargets. rewrite in_map_iff. split.
    - intros (v & Hxy & Hv). apply filter_In in Hv as [Hv Hd].
      apply visibleTiles_In in Hv as (Hx & Hy & Hdata). inversion Hxy; subst x y.
      unfold VIEWPORT_RADIUS, tileAt in *. repeat split; try assumption.
      rewrite <- Hdata. destruct (data v); [eauto | discriminate].
    - intros (Hx & Hy & [t Ht]). exists (mkVisible x y (Some t)). split; [reflexivity |].
      apply filter_In. split; [| reflexivity].
      apply visibleTiles_In. cbn [visibleX visibleY data]. unfold VIEWPORT_RADIUS.
      repeat split; try assumption. now symmetry. }
  split; [exact Hiff |].
  intros Hin. apply Hiff in Hin as (_ & _ & [t Ht]).
  now apply (handleTileClick_present x y st g t).
Qed.

End Map.

(** ** The keyboard *)

Section Keyboard.

Definition movedTo (dx dy : Z) (g : GameState) : GameState :=
  withPlayer (withPosition (mkCoord (coordX (position (player g)) + dx)
                                    (coordY (position (player g)) + dy))
                           (player g)) g.

Lemma positionEffect_fields (d : nat -> Q * Q) (g : GameState) :
  logs (fst (positionEffect d g)) = logs g
  /\ activePuzzle (fst (positionEffect d g)) = activePuzzle g.
Proof.
  unfold positionEffect.
  match goal with
  | |- context [enrichStart ?x ?y ?g0] =>
      destruct (enrichStart_fields x y g0) as (_ & _ & Ha & Hl)
  end.
  rewrite Hl, Ha. split; apply ensureAll_fields.
Qed.

Lemma keyMove_game (s : System) (dx dy : Z) (d : nat -> Q * Q) :
  activePuzzle (game s) = None ->
  game (handle (KeyMove dx dy d) s) = fst (positionEffect d (movedTo dx dy (game s))).
Proof.
  intros Hn. cbn [handle]. unfold movePlayer. rewrite Hn. fold (movedTo dx dy (game s)).
  now destruct (positionEffect d (movedTo dx dy (game s))).
Qed.

Lemma keyMove_lands (s : System) (dx dy : Z) (d : nat -> Q * Q) :
  reachable s -> activePuzzle (game s) = None ->
  -1 <= dx <= 1 -> -1 <= dy <= 1 ->
  position (player (game (handle (KeyMove dx dy d) s)))
  = mkCoord (coordX (position (player (game s))) + dx)
            (coordY (position (player (game s))) + dy)
  /\ exists t,
       tileAt (coordX (position (player (game s))) + dx)
              (coordY (position (player (game s))) + dy) (game s) = Some t
       /\ tileAt (coordX (position (player (game s))) + dx)
                 (coordY (position (player (game s))) + dy)
                 (game (handle (KeyMove dx dy d) s)) = Some t.
Proof.
  intros Hr Hn Hx Hy. rewrite (keyMove_game s dx dy d Hn).
  split; [now rewrite positionEffect_player |].
  destruct (reachable_invariant s Hr) as (Hsur & _).
  destruct (Hsur dx dy Hx Hy) as [t Ht]. exists t. split; [exact Ht |].
  unfold tileAt in *. rewrite positionEffect_world. now apply ensureAll_old.
Qed.

Definition arrowDelta (key : string) : option (Z * Z) :=
  if (key =? "ArrowUp")%string then Some (0, -1)
  else if (key =? "ArrowDown")%string then Some (0, 1)
  else if (key =? "ArrowLeft")%string then Some (-1, 0)
  else if (key =? "ArrowRight")%string then Some (1, 0)
  else None.

Lemma handleKeyDown_arrow (key : string) (d : nat -> Q * Q) (st : Stamp) (s : System)
  (dx dy : Z) :
  arrowDelta key = Some (dx, dy) ->
  handleKeyDown key d st s = handle (KeyMove dx dy d) s
  /\ Z.abs dx + Z.abs dy = 1.
Proof.
  unfold arrowDelta, handleKeyDown.
  repeat match goal with
         | |- context [if ?c then _ else _] => destruct c
         end;
    intros H; inversion H; subst; split; reflexivity.
Qed.

(** X6. With no puzzle attached, an arrow key moves the player by one
    cell (up is towards smaller y), and the cell stepped on held a tile
    already before the step: the step draws nothing for it and finds the
    tile as it was. With a puzzle attached the key does nothing. *)
Theorem arrow_key_steps_on_known_tile (key : string) (d : nat -> Q * Q) (st : Stamp)
  (s : System) (dx dy : Z) :
  reachable s ->
  arrowDelta key = Some (dx, dy) ->
  let here := position (player (game s)) in
  let there := position (player (game (handleKeyDown key d st s))) in
  (activePuzzle (game s) <> None -> handleKeyDown key d st s = s)
  /\ (activePuzzle (game s) = None ->
        there = mkCoord (coordX here + dx) (coordY here + dy)
        /\ Z.abs (coordX there - coordX here) + Z.abs (coordY there - coordY here) = 1
        /\ exists t, tileAt (coordX there) (coordY there) (game s) = Some t
                     /\ tileAt (coordX there) (coordY there)
                               (game (handleKeyDown key d st s)) = Some t).
Proof.
  intros Hr Hkey. cbn zeta.
  destruct (handleKeyDown_arrow key d st s dx dy Hkey) as [-> Hone]. split.
  - intros Ha. cbn [handle]. unfold movePlayer.
    destruct (activePuzzle (game s)); [reflexivity | contradiction].
  - intros Hn.
    destruct (keyMove_lands s dx dy d Hr Hn ltac:(lia) ltac:(lia)) as (Hpos & t & Ht & Ht').
    rewrite Hpos. cbn [coordX coordY]. split; [reflexivity |].
    split; [| eauto].
    replace (coordX (position (player (game s))) + dx
             - coordX (position (player (game s)))) with dx by lia.
    replace (coordY (position (player (game s))) + dy
             - coordY (position (player (game s)))) with dy by lia.
    exact Hone.
Qed.

Lemma arrow_key_steps_on_known_tile_witness :
  position (player (game (handleKeyDown "ArrowUp" puzzleAtOrigin stamp0
                            (mount 0 puzzleAtOrigin NoBackup)))) = mkCoord 0 (-1).
Proof.
  refine (proj1 (proj2 (arrow_key_steps_on_known_tile "ArrowUp" puzzleAtOrigin stamp0
                          (mount 0 puzzleAtOrigin NoBackup) 0 (-1)
                          (reachable_mount 0 puzzleAtOrigin) eq_refl) eq_refl)).
Defined.

(** X7. In every reachable state the Enter key interacts with the tile
    under the player, which is there: the interaction is never refused
    for distance and never throws. It logs one line and changes neither
    world nor player nor attached puzzle; on a tile with an unsolved
    puzzle it launches a puzzle generation (even if one is attached or in
    flight already), on any other tile it only inspects. *)
Theorem enter_key_interacts (d : nat -> Q * Q) (st : Stamp) (s : System) :
  reachable s ->
  let s' := handleKeyDown "Enter" d st s in
  exists t entry,
    tileAt (coordX (position (player (game s)))) (coordY (position (player (game s))))
           (game s) = Some t
    /\ world (game s') = world (game s) /\ player (game s') = player (game s)
    /\ activePuzzle (game s') = activePuzzle (game s)
    /\ logs (game s') = (logs (game s) ++ [entry])%list
    /\ logType entry = "info"
    /\ (puzzleIndicator t = true ->
          inFlight s' = (inFlight s ++ [PuzzleRequest (biome t) (level (player (game s)))])%list
          /\ isGenerating (game s') = true
          /\ message entry = "Interfacing with node logic...")
    /\ (puzzleIndicator t = false ->
          inFlight s' = inFlight s
          /\ isGenerating (game s') = isGenerating (game s)
          /\ message entry = "Inspecting " ++ toString (visualFeature t) ++ ": "
                             ++ toString (description t)).
Proof.
  intros Hr. cbn zeta. destruct (reachable_invariant s Hr) as (Hsur & _).
  destruct (Hsur 0 0 ltac:(lia) ltac:(lia)) as [t Ht].
  rewrite !Z.add_0_r in Ht. exists t.
  unfold handleKeyDown. cbn [String.eqb Ascii.eqb Bool.eqb]. cbn [handle].
  unfold handleTileClick. unfold tileAt in Ht. rewrite Ht.
  rewrite !Z.sub_diag. cbn [Z.abs Z.add Z.ltb Z.compare Z.eqb].
  unfold puzzleIndicator.
  destruct (flag (hasPuzzle t) && negb (flag (isSolved t))); cbn;
    eexists; repeat split; try reflexivity; try discriminate; exact Ht.
Qed.

Lemma enter_key_interacts_witness :
  exists t entry,
    tileAt 0 0 (game (mount 0 puzzleAtOrigin NoBackup)) = Some t
    /\ logs (game (handleKeyDown "Enter" puzzleAtOrigin stamp0
                     (mount 0 puzzleAtOrigin NoBackup)))
       = (logs (game (mount 0 puzzleAtOrigin NoBackup)) ++ [entry])%list.
Proof.
  destruct (enter_key_interacts puzzleAtOrigin stamp0 (mount 0 puzzleAtOrigin NoBackup)
              (reachable_mount 0 puzzleAtOrigin))
    as (t & entry & Ht & _ & _ & _ & Hl & _).
  exists t, entry. split; assumption.
Defined.

(** X8. A step and the step back: with no puzzle attached, moving by
    any delta and then by the opposite delta brings the player back, and
    the way back creates no tile: the world after both moves is the world
    after the first. *)
Theorem step_and_back (s : System) (dx dy : Z) (d1 d2 : nat -> Q * Q) :
  reachable s -> activePuzzle (game s) = None ->
  let there := handle (KeyMove dx dy d1) s in
  let back := handle (KeyMove (- dx) (- dy) d2) there in
  position (player (game back)) = position (player (game s))
  /\ world (game back) = world (game there).
Proof.
  intros Hr Hn. cbn zeta.
  assert (activePuzzle (game (handle (KeyMove dx dy d1) s)) = None) as Hn'.
  { rewrite (keyMove_game s dx dy d1 Hn).
    destruct (positionEffect_fields d1 (movedTo dx dy (game s))) as (_ & ->).
    exact Hn. }
  rewrite (keyMove_game _ (- dx) (- dy) d2 Hn').
  assert (position (player (movedTo (- dx) (- dy) (game (handle (KeyMove dx dy d1) s))))
          = position (player (game s))) as Hpos.
  { unfold movedTo at 1. cbn [player position withPlayer withPosition coordX coordY].
    rewrite (keyMove_game s dx dy d1 Hn), positionEffect_player.
    cbn [movedTo player position withPlayer withPosition coordX coordY].
    destruct (position (player (game s))) as [px py]. cbn [coordX coordY].
    f_equal; lia. }
  split; [now rewrite positionEffect_player |].
  rewrite positionEffect_world_surrounded; [reflexivity |].
  intros ex ey Hx Hy. unfold tileAt. rewrite Hpos.
  cbn [movedTo world withPlayer].
  destruct (reachable_invariant s Hr) as (Hsur & _).
  destruct (Hsur ex ey Hx Hy) as [t Ht]. unfold tileAt in Ht.
  rewrite (keyMove_game s dx dy d1 Hn), positionEffect_world.
  exists t. now apply ensureAll_old.
Qed.

Lemma step_and_back_witness :
  world (game (handle (KeyMove (-3) 0 puzzleAtOrigin)
                 (handle (KeyMove 3 0 allRealityNodes) (mount 0 puzzleAtOrigin NoBackup))))
  = world (game (handle (KeyMove 3 0 allRealityNodes) (mount 0 puzzleAtOrigin NoBackup))).
Proof.
  exact (proj2 (step_and_back (mount 0 puzzleAtOrigin NoBackup) 3 0 allRealityNodes
                  puzzleAtOrigin (reachable_mount 0 puzzleAtOrigin) eq_refl)).
Defined.

End Keyboard.

(** ** Properties that every tile of a session has *)

(** Names the state the position effect returns and states it as [fst]. *)
Ltac effect_state d :=
  match goal with
  | |- context [positionEffect d ?g0] =>
      let g' := fresh "g'" in
      let r := fresh "r" in
      let He := fresh "He" in
      destruct (positionEffect d g0) as [g' r] eqn:He;
      assert (g' = fst (positionEffect d g0)) as -> by now rewrite He
  end.

Section TileInvariant.

(** A property of the tile stored under a key that fresh tiles have and
    that the two tile updates of the code keep. *)
Variable P : string -> TileData -> Prop.
Hypothesis P_fresh : forall x y t, freshTile x y t -> P (tileKey x y) t.
Hypothesis P_empty : forall k, P k emptyTile.
Hypothesis P_content : forall k t d v, P k t -> P k (withContent d v t).
Hypothesis P_solved : forall k t, P k t -> P k (withSolved t).

Definition allTiles (w : gmap string TileData) : Prop :=
  forall k t, w !! k = Some t -> P k t.

Lemma allTiles_ensureAll (x y : Z) (d : nat -> Q * Q) (os : list (Z * Z)) (n : nat)
  (g : GameState) :
  allTiles (world g) -> allTiles (world (ensureAll x y d n os g)).
Proof.
  intros Hall k t Ht. destruct (world g !! k) as [t0|] eqn:Hk.
  - rewrite (ensureAll_old x y d os n g k t0 Hk) in Ht. inversion Ht; subst t0.
    exact (Hall k t Hk).
  - destruct (ensureAll_new x y d os n g k t Hk Ht) as (dx & dy & _ & -> & Hf).
    now apply P_fresh.
Qed.

Lemma allTiles_positionEffect (d : nat -> Q * Q) (g : GameState) :
  allTiles (world g) -> allTiles (world (fst (positionEffect d g))).
Proof. intros Hall. rewrite positionEffect_world. now apply allTiles_ensureAll. Qed.

Lemma allTiles_update (w : gmap string TileData) (id : string)
  (f : TileData -> TileData) :
  (forall k t, P k t -> P k (f t)) ->
  allTiles w -> allTiles (<[id := f (spreadTile (w !! id))]> w).
Proof.
  intros Hf Hall k t. destruct (decide (id = k)) as [->|Hne].
  - rewrite lookup_insert_eq. intros H; inversion H; subst t. apply Hf.
    destruct (w !! k) as [t0|] eqn:Hk; simpl; [exact (Hall k t0 Hk) | apply P_empty].
  - rewrite lookup_insert_ne by exact Hne. apply Hall.
Qed.

Lemma allTiles_enrichFinish (x y : Z) (content : Result JsValue) (st : Stamp)
  (g : GameState) :
  allTiles (world g) -> allTiles (world (enrichFinish x y content st g)).
Proof.
  intros Hall. unfold enrichFinish.
  destruct content as [c|]; cbn [bind]; [| exact Hall].
  destruct (getProp c "description") as [dsc|]; cbn [bind]; [| exact Hall].
  destruct (getProp c "visualFeature") as [v|]; cbn [bind]; [| exact Hall].
  cbn [world addLog withLogs withGenerating withWorld].
  apply (allTiles_update _ _ (withContent dsc v)); [| exact Hall].
  intros k t. apply P_content.
Qed.

Lemma allTiles_handlePuzzleSolve (gs : GameState) (st : Stamp) (g : GameState) :
  allTiles (world g) -> allTiles (world (fst (handlePuzzleSolve gs true st g))).
Proof.
  intros Hall. pose proof (handlePuzzleSolve_world gs st g) as Hw.
  destruct (activePuzzle gs); [| now rewrite Hw].
  unfold solvedAt in Hw. rewrite Hw. now apply allTiles_update.
Qed.

Definition tilesInvariant (s : System) : Prop :=
  allTiles (world (game s))
  /\ forall p w, storage s = Backup p -> savedWorld p = Some w -> allTiles w.

Lemma tilesInvariant_mount (loadTime : Z) (d : nat -> Q * Q) (store : Storage) :
  (forall p w, store = Backup p -> savedWorld p = Some w -> allTiles w) ->
  tilesInvariant (mount loadTime d store).
Proof.
  intros Hstore. unfold mount. effect_state d. split; [| exact Hstore].
  cbn [game]. apply allTiles_positionEffect.
  intros k t Hk. cbn in Hk. rewrite lookup_empty in Hk. discriminate.
Qed.

Lemma tilesInvariant_handle (s : System) (ev : Event) :
  tilesInvariant s -> tilesInvariant (handle ev s).
Proof.
  intros [Hall Hstore].
  destruct ev as [dx dy d | x y st | i reply e st | submission
                 | i st | | writeOk st | st d]; cbn [handle].
  - destruct (movePlayer dx dy (game s)) as [g|] eqn:Hm; [| now split].
    effect_state d. split; [| exact Hstore]. cbn [game].
    apply allTiles_positionEffect. now rewrite (movePlayer_world _ _ _ _ Hm).
  - destruct (handleTileClick x y st (game s)) as [[g r]|] eqn:Hc; [| now split].
    apply handleTileClick_fields in Hc as (Hw & _). split; [| exact Hstore].
    cbn [game]. now rewrite Hw.
  - destruct (inFlight s !! i) as [[x y b | b difficulty]|]; [| | now split].
    + split; [| exact Hstore]. cbn [game]. now apply allTiles_enrichFinish.
    + split; [| exact Hstore]. cbn [game].
      destruct (generatePuzzle b difficulty e reply); exact Hall.
  - destruct (activePuzzle (game s)) as [p|];
      [destruct (handleSubmit p submission) as [[|]|] |]; now split.
  - destruct (timers s !! i) as [[gs | m t]|]; [| now split | now split].
    pose proof (allTiles_handlePuzzleSolve gs st (game s) Hall) as Hs.
    destruct (handlePuzzleSolve gs true st (game s)) as [g cues]. now split.
  - now split.
  - unfold saveGame. destruct writeOk; [| now split]. split; [exact Hall |].
    cbn [storage]. intros p w Hp Hw. inversion Hp; subst p. cbn in Hw.
    inversion Hw; subst w. intros k t. rewrite lookup_fmap.
    destruct (world (game s) !! k) as [t0|] eqn:Hk; simpl; [| discriminate].
    intros H; inversion H; subst t. apply P_content. exact (Hall k t0 Hk).
  - destruct (loadGame st (storage s) (game s)) as [g [|]] eqn:Hl.
    + apply loadGame_accepted in Hl as (p & pl & w & Hst & _ & Hw & ->).
      effect_state d. split; [| exact Hstore]. cbn [game].
      apply allTiles_positionEffect. exact (Hstore p w Hst Hw).
    + apply loadGame_rejected in Hl as (Hw & _). split; [| exact Hstore].
      cbn [game]. now rewrite Hw.
Qed.

Lemma reachable_tilesInvariant (s : System) : reachable s -> tilesInvariant s.
Proof.
  induction 1 as [loadTime d | loadTime d earlier _ IH | s ev _ IH].
  - apply tilesInvariant_mount. discriminate.
  - apply tilesInvariant_mount. apply IH.
  - now apply tilesInvariant_handle.
Qed.

End TileInvariant.

Section TileFacts.

(** A tile carries no coordinates, or those of its key. *)
Definition placed (k : string) (t : TileData) : Prop :=
  (tileId t = None /\ tileX t = None /\ tileY t = None)
  \/ exists x y, k = tileKey x y /\ tileId t = Some k
                 /\ tileX t = Some x /\ tileY t = Some y.

(** X9. In every reachable state a tile that carries an id and
    coordinates carries those of the place it is stored at: the tile read
    at (x, y) never claims to be elsewhere. *)
Theorem tiles_know_their_place (s : System) (x y : Z) (t : TileData) :
  reachable s ->
  tileAt x y (game s) = Some t ->
  (tileId t = None /\ tileX t = None /\ tileY t = None)
  \/ (tileId t = Some (tileKey x y) /\ tileX t = Some x /\ tileY t = Some y).
Proof.
  intros Hr Ht.
  assert (placed (tileKey x y) t) as [Hnone | (x' & y' & Hk & Hid & Hx & Hy)].
  { refine (proj1 (reachable_tilesInvariant placed _ _ _ _ s Hr) _ _ Ht).
    - intros x0 y0 t0 (Hid & Hx & Hy & _). right. exists x0, y0. auto.
    - intros k. left. auto.
    - intros k t0 dsc v H. exact H.
    - intros k t0 H. exact H. }
  - now left.
  - right. apply tileKey_inj in Hk as [-> ->]. auto.
Qed.

Definition strayTile : TileData :=
  mkTile (Some "1,0") (Some 1) (Some 0) (Some DATA_WASTELAND) (JStr "Scanning...")
         (Some false) (Some false) (Some true) (JStr "...").

Lemma strayTile_read : tileAt 1 0 (game strayResolution) = Some strayTile.
Proof. vm_compute. reflexivity. Qed.

Lemma tiles_know_their_place_witness :
  tileAt 1 0 (game strayResolution) = Some strayTile
  /\ tileId strayTile = Some (tileKey 1 0).
Proof.
  split; [exact strayTile_read |].
  destruct (tiles_know_their_place strayResolution 1 0 strayTile
              strayResolution_reachable strayTile_read)
    as [(H & _) | (H & _)]; [discriminate H | exact H].
Defined.

(** X10. Nothing ever sets a tile's explored flag: in every reachable
    state no tile is explored, whether the player has stood on it,
    inspected it or solved its puzzle. *)
Theorem no_tile_is_ever_explored (s : System) (k : string) (t : TileData) :
  reachable s ->
  world (game s) !! k = Some t ->
  explored t <> Some true.
Proof.
  intros Hr Ht.
  refine (proj1 (reachable_tilesInvariant (fun _ t => explored t <> Some true)
                   _ _ _ _ s Hr) _ _ Ht).
  - intros x0 y0 t0 (_ & _ & _ & _ & _ & He & _). rewrite He. discriminate.
  - intros _. discriminate.
  - intros _ t0 dsc v H. exact H.
  - intros _ t0 H. exact H.
Qed.

Lemma strayTile_lookup : world (game strayResolution) !! tileKey 1 0 = Some strayTile.
Proof. vm_compute. reflexivity. Qed.

Lemma no_tile_is_ever_explored_witness :
  world (game strayResolution) !! tileKey 1 0 = Some strayTile
  /\ explored strayTile <> Some true.
Proof.
  split; [exact strayTile_lookup |].
  exact (no_tile_is_ever_explored strayResolution (tileKey 1 0) strayTile
           strayResolution_reachable strayTile_lookup).
Defined.

End TileFacts.

(** ** Progress, inventory and timers *)

Section Progress.

(** The player of a session: nothing in the inventory, experience a
    non-negative multiple of the reward, the level derived from it. *)
Definition playerOk (p : Player) : Prop :=
  inventory p = [] /\ 0 <= xp p /\ (xp p) mod XP_PER_PUZZLE = 0
  /\ level p = xp p / XP_PER_LEVEL + 1.

Definition timerOk (t : Timer) : Prop :=
  match t with
  | SolveTimer gs => playerOk (player gs) /\ activePuzzle gs <> None
  | LogTimer _ _ => True
  end.

Definition progressInvariant (s : System) : Prop :=
  playerOk (player (game s))
  /\ (forall p pl, storage s = Backup p -> savedPlayer p = Some pl -> playerOk pl)
  /\ Forall timerOk (timers s).

Lemma playerOk_withPosition (c : Coordinates) (p : Player) :
  playerOk p -> playerOk (withPosition c p).
Proof. intros H. exact H. Qed.

Lemma playerOk_progress (gs prev : Player) :
  playerOk gs -> playerOk prev ->
  playerOk (withProgress (xp gs + XP_PER_PUZZLE)
              ((xp gs + XP_PER_PUZZLE) / XP_PER_LEVEL + 1) prev).
Proof.
  unfold playerOk, XP_PER_PUZZLE, XP_PER_LEVEL.
  cbn [inventory xp level withProgress].
  intros (_ & Hx & Hm & _) (Hi & _).
  split; [exact Hi |]. split; [lia |]. split; [| reflexivity].
  replace (xp gs + 100) with (xp gs + 1 * 100) by lia.
  rewrite Z_mod_plus_full. exact Hm.
Qed.

Lemma Forall_delete_timer (i : nat) (l : list Timer) :
  Forall timerOk l -> Forall timerOk (delete i l).
Proof.
  intros H. revert i. induction H as [|t l Ht Hl IH]; intros [|i]; simpl;
    auto using Forall.
Qed.

Lemma Forall_logTimers (cues : list Cue) : Forall timerOk (logTimers cues).
Proof.
  induction cues as [|c cues IH]; simpl; [constructor |].
  destruct c; try exact IH. constructor; [exact I | exact IH].
Qed.

Lemma handlePuzzleSolve_playerOk (gs : GameState) (st : Stamp) (g : GameState) :
  playerOk (player gs) -> playerOk (player g) ->
  playerOk (player (fst (handlePuzzleSolve gs true st g))).
Proof.
  intros Hgs Hg. unfold handlePuzzleSolve. destruct (activePuzzle gs); cbn.
  - now apply playerOk_progress.
  - exact Hg.
Qed.

Lemma progressInvariant_mount (loadTime : Z) (d : nat -> Q * Q) (store : Storage) :
  (forall p pl, store = Backup p -> savedPlayer p = Some pl -> playerOk pl) ->
  progressInvariant (mount loadTime d store).
Proof.
  intros Hstore. unfold mount. effect_state d.
  split; [| split; [exact Hstore | constructor]].
  cbn [game]. rewrite positionEffect_player. unfold playerOk. cbn [initialState player inventory xp level].
  repeat split; solve [reflexivity | lia].
Qed.

Lemma progressInvariant_handle (s : System) (ev : Event) :
  progressInvariant s -> progressInvariant (handle ev s).
Proof.
  intros Hinv. pose proof Hinv as (Hp & Hstore & Htimers).
  destruct ev as [dx dy d | x y st | i reply e st | submission
                 | i st | | writeOk st | st d]; cbn [handle].
  - unfold movePlayer. destruct (activePuzzle (game s)); [exact Hinv |].
    effect_state d. split; [| now split]. cbn [game].
    rewrite positionEffect_player. exact Hp.
  - destruct (handleTileClick x y st (game s)) as [[g r]|] eqn:Hc; [| exact Hinv].
    apply handleTileClick_fields in Hc as (_ & Hpl & _).
    split; [| now split]. cbn [game]. now rewrite Hpl.
  - destruct (inFlight s !! i) as [[x y b | b difficulty]|]; [| | exact Hinv].
    + split; [| now split]. cbn [game]. now rewrite enrichFinish_player.
    + split; [| now split]. cbn [game].
      destruct (generatePuzzle b difficulty e reply); exact Hp.
  - destruct (activePuzzle (game s)) as [p|] eqn:Ha; [| exact Hinv].
    destruct (handleSubmit p submission) as [[|]|]; try exact Hinv.
    split; [exact Hp |]. split; [exact Hstore |]. cbn [timers].
    apply Forall_app. split; [exact Htimers |].
    constructor; [| constructor]. split; [exact Hp | congruence].
  - destruct (timers s !! i) as [[gs | m t]|] eqn:Hi; [| | exact Hinv].
    + assert (timerOk (SolveTimer gs)) as [Hgs _].
      { exact (Forall_lookup_1 _ _ _ _ Htimers Hi). }
      pose proof (handlePuzzleSolve_playerOk gs st (game s) Hgs Hp) as Hnew.
      destruct (handlePuzzleSolve gs true st (game s)) as [g cues].
      split; [exact Hnew |]. split; [exact Hstore |]. cbn [timers].
      apply Forall_app. split; [now apply Forall_delete_timer | apply Forall_logTimers].
    + split; [exact Hp |]. split; [exact Hstore |]. now apply Forall_delete_timer.
  - exact Hinv.
  - unfold saveGame. destruct writeOk; [| exact Hinv].
    split; [exact Hp |]. split; [| exact Htimers].
    cbn [storage]. intros p pl Hsaved Hpl. inversion Hsaved; subst p.
    cbn in Hpl. inversion Hpl; subst pl. exact Hp.
  - destruct (loadGame st (storage s) (game s)) as [g [|]] eqn:Hl.
    + apply loadGame_accepted in Hl as (p & pl & w & Hst & Hpl & _ & ->).
      effect_state d. split; [| now split]. cbn [game].
      rewrite positionEffect_player. exact (Hstore p pl Hst Hpl).
    + apply loadGame_rejected in Hl as (_ & Hpl & _).
      split; [| now split]. cbn [game]. now rewrite Hpl.
Qed.

Lemma reachable_progressInvariant (s : System) : reachable s -> progressInvariant s.
Proof.
  induction 1 as [loadTime d | loadTime d earlier _ IH | s ev _ IH].
  - apply progressInvariant_mount. discriminate.
  - apply progressInvariant_mount. apply IH.
  - now apply progressInvariant_handle.
Qed.

End Progress.

Section ProgressFacts.

(** X11. In every reachable state the level is the one derived from the
    experience, floor(xp / 500) + 1, and the experience is a non-negative
    multiple of the reward of one puzzle. *)
Theorem level_follows_experience (s : System) :
  reachable s ->
  let p := player (game s) in
  level p = xp p / XP_PER_LEVEL + 1
  /\ 1 <= level p
  /\ 0 <= xp p
  /\ exists solvedCount, 0 <= solvedCount /\ xp p = solvedCount * XP_PER_PUZZLE.
Proof.
  intros Hr. cbn zeta.
  destruct (reachable_progressInvariant s Hr) as ((_ & Hx & Hm & Hl) & _).
  unfold XP_PER_LEVEL, XP_PER_PUZZLE in *.
  split; [exact Hl |]. split; [| split; [exact Hx |]].
  - pose proof (Z.div_pos (xp (player (game s))) 500 Hx ltac:(lia)). lia.
  - exists (xp (player (game s)) / 100). split.
    + apply Z.div_pos; lia.
    + pose proof (Z.div_mod (xp (player (game s))) 100 ltac:(lia)). lia.
Qed.

Lemma level_follows_experience_witness :
  level (player (game strayResolution)) = 1 /\ xp (player (game strayResolution)) = 100.
Proof.
  pose proof (level_follows_experience strayResolution strayResolution_reachable)
    as (Hl & _).
  split; [| reflexivity]. exact Hl.
Defined.

(** X12. The head-up display, in every reachable state: the experience
    shown lies from the threshold of the current level up to, and not
    reaching, the goal displayed beside it, and the bar is filled by that
    part of the level, between 0 and 100 percent, never full. *)
Theorem experience_bar_in_range (s : System) :
  reachable s ->
  let p := player (game s) in
  (level p - 1) * XP_PER_LEVEL <= xp p < xpGoal p
  /\ (xpBarWidth p == inject_Z (xp p - (level p - 1) * XP_PER_LEVEL) / 5)%Q
  /\ (0 <= xpBarWidth p)%Q /\ (xpBarWidth p < 100)%Q.
Proof.
  intros Hr. cbn zeta.
  destruct (reachable_progressInvariant s Hr) as ((_ & Hx & _ & Hl) & _).
  unfold xpGoal, xpBarWidth, XP_PER_LEVEL in *.
  pose proof (Z.div_mod (xp (player (game s))) 500 ltac:(lia)) as Hdm.
  pose proof (Z.mod_pos_bound (xp (player (game s))) 500 ltac:(lia)) as Hb.
  rewrite Z.rem_mod_nonneg by lia.
  assert (xp (player (game s)) - (level (player (game s)) - 1) * 500
          = xp (player (game s)) mod 500) as -> by lia.
  split; [lia |].
  generalize dependent (xp (player (game s)) mod 500). intros r _ Hr500.
  unfold Qeq, Qle, Qlt, Qdiv, Qmult, Qinv, inject_Z. cbn. lia.
Qed.

Lemma experience_bar_in_range_witness :
  (xpBarWidth (player (game strayResolution)) == 20)%Q.
Proof.
  pose proof (experience_bar_in_range strayResolution strayResolution_reachable)
    as (_ & Hw & _).
  rewrite Hw. reflexivity.
Defined.

(** X13. The inventory panel always has four slots, however long the
    inventory, and shows in slot i the i-th item when it is a non-empty
    label. Nothing in the game adds an item: in every reachable state the
    inventory is empty and the four slots are empty. *)
Theorem inventory_stays_empty (s : System) (inv : list string) :
  reachable s ->
  List.length (renderInventory inv) = 4%nat
  /\ (forall i item, nth_error (renderInventory inv) i = Some (Some item) ->
        (i < 4)%nat /\ nth_error inv i = Some item /\ item <> "")
  /\ inventory (player (game s)) = []
  /\ renderInventory (inventory (player (game s))) = [None; None; None; None].
Proof.
  intros Hr. split; [reflexivity |]. split.
  - intros i item. unfold renderInventory, MAX_INVENTORY_SLOTS.
    set (look := nth_error inv).
    do 4 (destruct i as [|i];
          [cbn [seq List.map nth_error];
           match goal with
           | |- context [look ?n] => destruct (look n) as [it|] eqn:Hn; [| discriminate]
           end;
           destruct (String.eqb_spec it ""); [discriminate |];
           intros H; inversion H; subst; repeat split; auto; lia |]).
    cbn [seq List.map nth_error]. destruct i; discriminate.
  - destruct (reachable_progressInvariant s Hr) as ((Hi & _) & _).
    split; [exact Hi |]. rewrite Hi. reflexivity.
Qed.

Lemma inventory_stays_empty_witness :
  renderInventory (inventory (player (game strayResolution))) = [None; None; None; None].
Proof.
  exact (proj2 (proj2 (proj2 (inventory_stays_empty strayResolution []
                                strayResolution_reachable)))).
Defined.

(** The session in which the player has answered correctly and the timer
    of the answer has not fired yet. *)
Definition answered : System :=
  run [KeyMove 1 0 puzzleAtOrigin; Reply 1%nat Rejected env0 stamp0; Submit "4"]
      pendingSystem.

Lemma answered_reachable : reachable answered.
Proof. unfold answered. apply reachable_run, pendingSystem_reachable. Qed.

Lemma answered_timer : timers answered !! 0%nat = Some (SolveTimer (game answered)).
Proof. vm_compute. reflexivity. Qed.

(** X14. Every timer of a correct answer resolves when it fires, in one
    step: the puzzle is detached, the tile under the player of the
    answering render is solved, the experience is that render's plus 100
    with the level derived from it, the player stays where it is, one
    success line is logged, and the timer is gone. *)
Theorem solve_timer_resolves (s : System) (i : nat) (gs : GameState) (st : Stamp) :
  reachable s ->
  timers s !! i = Some (SolveTimer gs) ->
  let s' := handle (TimerFires i st) s in
  activePuzzle (game s') = None
  /\ (exists t, world (game s') !! playerKey gs = Some t /\ isSolved t = Some true)
  /\ (forall k, k <> playerKey gs -> world (game s') !! k = world (game s) !! k)
  /\ xp (player (game s')) = xp (player gs) + XP_PER_PUZZLE
  /\ level (player (game s')) = xp (player (game s')) / XP_PER_LEVEL + 1
  /\ position (player (game s')) = position (player (game s))
  /\ (exists entry, logs (game s') = (logs (game s) ++ [entry])%list
                    /\ logType entry = "success")
  /\ (exists later, timers s' = (delete i (timers s) ++ later)%list
                    /\ (List.length later <= 1)%nat
                    /\ (later <> [] <-> level (player gs) < level (player (game s')))).
Proof.
  intros Hr Hi. cbn zeta.
  destruct (reachable_progressInvariant s Hr) as (_ & _ & Htimers).
  pose proof (Forall_lookup_1 _ _ _ _ Htimers Hi) as [_ Hactive].
  cbn [handle]. rewrite Hi. unfold handlePuzzleSolve.
  destruct (activePuzzle gs) as [p|]; [| contradiction].
  cbn [game timers fst snd activePuzzle addLog withLogs withWorld withPlayer
       withProgress withActivePuzzle player xp level position world logs].
  split; [reflexivity |]. split.
  { unfold playerKey. rewrite lookup_insert_eq. eexists. split; reflexivity. }
  split.
  { intros k Hk. unfold playerKey in Hk. now rewrite lookup_insert_ne. }
  do 3 (split; [reflexivity |]). split.
  { eexists. split; reflexivity. }
  destruct (level (player gs) <? (xp (player gs) + XP_PER_PUZZLE) / XP_PER_LEVEL + 1)
    eqn:Hup; cbn [logTimers].
  - eexists. split; [reflexivity |]. split; [simpl; lia |].
    apply Z.ltb_lt in Hup. split; [intros _; exact Hup | discriminate].
  - eexists. split; [reflexivity |]. split; [simpl; lia |].
    apply Z.ltb_ge in Hup. split; [congruence | lia].
Qed.

Lemma solve_timer_resolves_witness :
  timers answered !! 0%nat = Some (SolveTimer (game answered))
  /\ activePuzzle (game (handle (TimerFires 0%nat stamp0) answered)) = None.
Proof.
  split; [exact answered_timer |].
  exact (proj1 (solve_timer_resolves answered 0%nat (game answered) stamp0
                  answered_reachable answered_timer)).
Defined.

End ProgressFacts.

(** ** The log *)

Section Log.

Definition extendsLog (g g' : GameState) : Prop :=
  exists added, logs g' = (logs g ++ added)%list /\ (List.length added <= 1)%nat.

Lemma extendsLog_same (g g' : GameState) : logs g' = logs g -> extendsLog g g'.
Proof. intros H. exists []. rewrite H, app_nil_r. split; [reflexivity | simpl; lia]. Qed.

Lemma extendsLog_one (g g' : GameState) (entry : GameLog) :
  logs g' = (logs g ++ [entry])%list -> extendsLog g g'.
Proof. intros H. exists [entry]. split; [exact H | simpl; lia]. Qed.

(** X15. The log is append-only: every event but a load leaves the
    lines logged so far in place and adds at most one at the end. A load
    adds exactly one line, to the saved log when it is accepted, to the
    current log when it is refused. *)
Theorem log_is_append_only (s : System) (ev : Event) :
  (isLoad ev = false -> extendsLog (game s) (game (handle ev s)))
  /\ (isLoad ev = true ->
      exists base entry,
        logs (game (handle ev s)) = (base ++ [entry])%list
        /\ (base = logs (game s)
            \/ exists p, storage s = Backup p /\ base = savedLogs p)).
Proof.
  destruct ev as [dx dy d | x y st | i reply e st | submission
                 | i st | | writeOk st | st d];
    (split; [intros Hload; try discriminate Hload | try discriminate]); cbn [handle].
  - unfold movePlayer. destruct (activePuzzle (game s)); [now apply extendsLog_same |].
    match goal with
    | |- context [positionEffect d ?g0] =>
        destruct (positionEffect_fields d g0) as [Hl _];
        destruct (positionEffect d g0) as [g' r]
    end.
    now apply extendsLog_same.
  - unfold handleTileClick.
    repeat match goal with
           | |- context [if ?c then _ else _] => destruct c
           | |- context [match world (game s) !! ?k with _ => _ end] =>
               destruct (world (game s) !! k)
           end;
      first [now apply extendsLog_same | eapply extendsLog_one; reflexivity].
  - destruct (inFlight s !! i) as [[x y b | b difficulty]|];
      [| | now apply extendsLog_same]; cbn [game].
    + unfold enrichFinish.
      destruct (generateTileContent x y b reply) as [c|]; cbn [bind];
        [| now apply extendsLog_same].
      destruct (getProp c "description"); cbn [bind]; [| now apply extendsLog_same].
      destruct (getProp c "visualFeature"); cbn [bind]; [| now apply extendsLog_same].
      eapply extendsLog_one; reflexivity.
    + destruct (generatePuzzle b difficulty e reply);
        [now apply extendsLog_same | eapply extendsLog_one; reflexivity].
  - destruct (activePuzzle (game s)) as [p|];
      [destruct (handleSubmit p submission) as [[|]|] |]; now apply extendsLog_same.
  - destruct (timers s !! i) as [[gs | m t]|]; [| | now apply extendsLog_same].
    + unfold handlePuzzleSolve. destruct (activePuzzle gs);
        eapply extendsLog_one; reflexivity.
    + eapply extendsLog_one; reflexivity.
  - now apply extendsLog_same.
  - unfold saveGame. destruct writeOk; eapply extendsLog_one; reflexivity.
  - intros _. unfold loadGame.
    destruct (storage s) as [| |p] eqn:Hst;
      try (exists (logs (game s)); eexists; split; [reflexivity | now left]).
    destruct (savedPlayer p), (savedWorld p);
      try (exists (logs (game s)); eexists; split; [reflexivity | now left]).
    match goal with
    | |- context [positionEffect d ?g0] =>
        destruct (positionEffect_fields d g0) as [Hl _];
        destruct (positionEffect d g0) as [g' r]
    end.
    cbn [game fst] in *. rewrite Hl. exists (savedLogs p). eexists.
    split; [reflexivity |]. right. eauto.
Qed.

End Log.

(** ** The content provider, continued *)

Section ProviderFacts.

(** X16. The topic of a grounded puzzle is always one of the five: for
    a draw in [0, 1) the computed index is in range. *)
Theorem randomTopic_in_range (e : Env) :
  (0 <= topicDraw e)%Q -> (topicDraw e < 1)%Q ->
  exists topic, randomTopic e = Some topic /\ In topic topics.
Proof.
  intros H0 H1. unfold randomTopic.
  set (x := (topicDraw e * inject_Z (Z.of_nat (List.length topics)))%Q).
  assert (0 <= x)%Q as Hx0.
  { unfold x. apply Qmult_le_0_compat; [exact H0 | discriminate]. }
  assert (x < 5)%Q as Hx5.
  { unfold x. change (inject_Z (Z.of_nat (List.length topics))) with 5%Q.
    apply Qmult_lt_compat_r with (z := 5%Q) in H1; [exact H1 | reflexivity]. }
  assert (0 <= Qfloor x) as Hf0.
  { change 0 with (Qfloor 0). now apply Qfloor_resp_le. }
  assert (Qfloor x < 5) as Hf5.
  { rewrite Zlt_Qlt. eapply Qle_lt_trans; [apply Qfloor_le | exact Hx5]. }
  assert (exists n, Z.to_nat (Qfloor x) = n /\ (n < 5)%nat) as (n & -> & Hn).
  { exists (Z.to_nat (Qfloor x)). split; [reflexivity | lia]. }
  do 5 (destruct n as [|n]; [eexists; split; [reflexivity | simpl; tauto] |]). lia.
Qed.

Lemma randomTopic_in_range_witness :
  exists topic, randomTopic abcEnv = Some topic /\ In topic topics.
Proof.
  apply randomTopic_in_range; [discriminate | reflexivity].
Defined.

Lemma citation_nonempty (c : GroundingChunk) (u : GroundingUrl) :
  citation c = Some u -> uri u <> "" /\ title u <> "".
Proof.
  unfold citation. destruct (web c) as [w|]; [| discriminate].
  destruct (webUri w) as [l|]; [| discriminate].
  destruct (String.eqb_spec l ""); [discriminate |].
  intros H; inversion H; subst u. cbn. split; [assumption |].
  destruct (webTitle w) as [t|]; [| discriminate].
  destruct (String.eqb_spec t ""); [discriminate | assumption].
Qed.

Lemma citations_nonempty (chunks : list GroundingChunk) :
  List.Forall (fun u => uri u <> "" /\ title u <> "") (citations chunks)
  /\ (List.length (citations chunks) <= List.length chunks)%nat.
Proof.
  induction chunks as [|c rest [IH1 IH2]]; simpl; [split; [constructor | lia] |].
  destruct (citation c) as [u|] eqn:Hc; simpl.
  - split; [constructor; [exact (citation_nonempty c u Hc) | exact IH1] | lia].
  - split; [exact IH1 | lia].
Qed.

(** What the grounded generation returns: the fallback, or a puzzle built
    from the parsed answer. *)
Lemma generateRealityPuzzle_cases (e : Env) (reply : Backend) (p : Puzzle) :
  generateRealityPuzzle e reply = Ok p ->
  p = realityFallback e
  \/ exists response wrongList correct q,
       reply = Replied response
       /\ p = mkPuzzle (uuid e) (JStr ("[REALITY CHECK]" ++ newline ++ toString q))
                (JStr "reality_check")
                (JArr (sortRandom (draws e) (wrongList ++ [correct])))
                correct false
                (Some (citations (default [] (groundingChunks response)))).
Proof.
  unfold generateRealityPuzzle.
  destruct reply as [|response]; cbn [catch]; [intros H; inversion H; now left |].
  destruct (parseOrEmpty (text response)) as [data|]; cbn [bind catch];
    [| intros H; inversion H; now left].
  destruct (getProp data "wrongOptions") as [wrong|]; cbn [bind catch];
    [| intros H; inversion H; now left].
  destruct (if truthy wrong then spread wrong else Ok []) as [wrongList|];
    cbn [bind catch]; [| intros H; inversion H; now left].
  destruct (getProp data "correctAnswer") as [correct|]; cbn [bind catch];
    [| intros H; inversion H; now left].
  destruct (getProp data "question") as [q|]; cbn [bind catch];
    [| intros H; inversion H; now left].
  intros H; inversion H. right. exists response, wrongList, correct, q.
  split; [reflexivity |]. destruct (groundingChunks response); reflexivity.
Qed.

(** X17. Only grounded puzzles carry citations, and every citation a
    generated puzzle carries has a non-empty source locator and a
    non-empty title; there are at most as many as the backend attached
    chunks. *)
Theorem citations_are_complete (b : option BiomeType) (difficulty : Z) (e : Env)
  (reply : Backend) (p : Puzzle) (urls : list GroundingUrl) :
  generatePuzzle b difficulty e reply = Ok p ->
  groundingUrls p = Some urls ->
  b = Some REALITY_NODE
  /\ List.Forall (fun u => uri u <> "" /\ title u <> "") urls
  /\ exists response,
       reply = Replied response
       /\ (List.length urls <= List.length (default [] (groundingChunks response)))%nat.
Proof.
  unfold generatePuzzle. destruct (isRealityNode b) eqn:Hb.
  - intros Hgen Hurls.
    split; [destruct b as [[]|]; try discriminate; reflexivity |].
    apply generateRealityPuzzle_cases in Hgen
      as [-> | (response & wrongList & correct & q & -> & ->)];
      [discriminate Hurls |].
    cbn in Hurls. inversion Hurls; subst urls.
    split; [apply citations_nonempty |].
    exists response. split; [reflexivity | apply citations_nonempty].
  - intros Hgen Hurls. exfalso. revert Hgen.
    destruct reply as [|response]; cbn [catch];
      [intros H; inversion H; subst p; discriminate Hurls |].
    destruct (parseOrEmpty (text response)) as [data|]; cbn [bind catch];
      [| intros H; inversion H; subst p; discriminate Hurls].
    destruct (getProp data "question"), (getProp data "type"),
      (getProp data "options"), (getProp data "answer"); cbn [bind catch];
      intros H; inversion H; subst p; discriminate Hurls.
Qed.

Lemma citations_are_complete_witness :
  exists p urls,
    generatePuzzle (Some REALITY_NODE) 1 abcEnv (Replied abcResponse) = Ok p
    /\ groundingUrls p = Some urls
    /\ List.Forall (fun u => uri u <> "" /\ title u <> "") urls.
Proof.
  eexists. eexists. split; [reflexivity |]. split; [reflexivity |].
  exact (proj1 (proj2 (citations_are_complete (Some REALITY_NODE) 1 abcEnv
                         (Replied abcResponse) _ _ eq_refl eq_refl))).
Defined.

End ProviderFacts.

(** ** The puzzle dialog, continued *)

Section Answers.

(** A string of white space only. *)
Fixpoint blank (s : string) : bool :=
  match s with
  | EmptyString => true
  | String c s' => isWhiteSpace c && blank s'
  end.

#[local] Arguments String.append _ _ : simpl nomatch.

Lemma append_assoc_s (a b c : string) : ((a ++ b) ++ c = a ++ b ++ c)%string.
Proof. induction a as [|x a IH]; simpl; [reflexivity | now rewrite IH]. Qed.

Lemma append_empty_r (a : string) : (a ++ "")%string = a.
Proof. induction a as [|x a IH]; simpl; [reflexivity | now rewrite IH]. Qed.

Lemma toLowerCase_app (a b : string) :
  toLowerCase (a ++ b) = (toLowerCase a ++ toLowerCase b)%string.
Proof. induction a as [|x a IH]; simpl; [reflexivity | now rewrite IH]. Qed.

Lemma blank_toLowerCase (s : string) : blank (toLowerCase s) = blank s.
Proof.
  induction s as [|c s IH]; simpl; [reflexivity |].
  now rewrite isWhiteSpace_lowerChar, IH.
Qed.

Lemma trimStart_blank (l s : string) :
  blank l = true -> trimStart (l ++ s) = trimStart s.
Proof.
  induction l as [|c l IH]; simpl; [reflexivity |].
  intros H. apply andb_true_iff in H as [Hc Hl]. rewrite Hc. now apply IH.
Qed.

Lemma trimEnd_blank (r : string) : blank r = true -> trimEnd r = "".
Proof.
  induction r as [|c r IH]; simpl; [reflexivity |].
  intros H. apply andb_true_iff in H as [Hc Hr]. now rewrite (IH Hr), Hc.
Qed.

Lemma trimEnd_app_blank (s r : string) :
  blank r = true -> trimEnd (s ++ r) = trimEnd s.
Proof.
  intros Hr. induction s as [|c s IH]; simpl.
  - now apply trimEnd_blank.
  - now rewrite IH.
Qed.

Lemma trimStart_app_blank (s r : string) :
  blank r = true ->
  exists r', blank r' = true /\ trimStart (s ++ r) = (trimStart s ++ r')%string.
Proof.
  intros Hr. induction s as [|c s IH]; simpl.
  - exists (trimStart r). split; [| reflexivity].
    clear - Hr. induction r as [|c r IH]; simpl; [reflexivity |].
    simpl in Hr. apply andb_true_iff in Hr as [Hc Hr]. rewrite Hc. now apply IH.
  - destruct (isWhiteSpace c); [exact IH |].
    exists r. split; [exact Hr | reflexivity].
Qed.

Lemma trim_padding (l s r : string) :
  blank l = true -> blank r = true -> trim (l ++ s ++ r) = trim s.
Proof.
  intros Hl Hr. unfold trim. rewrite (trimStart_blank _ _ Hl).
  destruct (trimStart_app_blank s r Hr) as (r' & Hr' & ->).
  now apply trimEnd_app_blank.
Qed.

(** X18. Letter case and surrounding white space of a submission never
    change the verdict, whatever the stored answer is. *)
Theorem verdict_ignores_case_and_padding (puzzle : Puzzle) (l a r b : string) :
  blank l = true -> blank r = true -> toLowerCase a = toLowerCase b ->
  handleSubmit puzzle (l ++ a ++ r) = handleSubmit puzzle b.
Proof.
  intros Hl Hr Hab. unfold handleSubmit. cbn [normalize bind].
  rewrite !toLowerCase_app, Hab.
  rewrite trim_padding by (now rewrite blank_toLowerCase).
  reflexivity.
Qed.

Lemma verdict_ignores_case_and_padding_witness :
  handleSubmit fourPuzzle ("  " ++ "FOUR, or 4" ++ " ")
  = handleSubmit fourPuzzle "four, OR 4".
Proof.
  apply verdict_ignores_case_and_padding; reflexivity.
Defined.

Lemma trimStart_split (s : string) : exists wl, s = (wl ++ trimStart s)%string.
Proof.
  induction s as [|c s [wl IH]]; simpl; [now exists "" |].
  destruct (isWhiteSpace c).
  - exists (String c wl). simpl. now rewrite <- IH.
  - now exists "".
Qed.

Lemma trimEnd_split (s : string) : exists wr, s = (trimEnd s ++ wr)%string.
Proof.
  induction s as [|c s [wr IH]]; simpl; [now exists "" |].
  destruct (trimEnd s) as [|d t].
  - destruct (isWhiteSpace c).
    + now exists (String c s).
    + exists s. reflexivity.
  - exists wr. simpl. simpl in IH. now rewrite <- IH.
Qed.

Lemma trimStart_head (s : string) :
  trimStart s = ""
  \/ exists c t, trimStart s = String c t /\ isWhiteSpace c = false.
Proof.
  induction s as [|c s IH]; simpl; [now left |].
  destruct (isWhiteSpace c) eqn:Hc; [exact IH |].
  right. now exists c, s.
Qed.

Lemma trimEnd_nonwhite (c : ascii) (t : string) :
  isWhiteSpace c = false -> trimEnd (String c t) = String c (trimEnd t).
Proof. intros Hc. simpl. rewrite Hc. destruct (trimEnd t); reflexivity. Qed.

Lemma trimEnd_last (s : string) :
  trimEnd s = ""
  \/ exists u c, trimEnd s = (u ++ String c "")%string /\ isWhiteSpace c = false.
Proof.
  induction s as [|c s IH]; simpl; [now left |].
  destruct (trimEnd s) as [|d t].
  - destruct (isWhiteSpace c) eqn:Hc; [now left |].
    right. now exists "", c.
  - right. destruct IH as [IH | (u & c1 & IH & Hc1)]; [discriminate |].
    exists (String c u), c1. simpl. now rewrite IH.
Qed.

Lemma trimStart_keeps (x y t : string) (c : ascii) :
  isWhiteSpace c = false ->
  exists x', trimStart (x ++ String c t ++ y) = (x' ++ String c t ++ y)%string.
Proof.
  intros Hc. induction x as [|d x [x' IH]]; simpl.
  - exists "". now rewrite Hc.
  - destruct (isWhiteSpace d).
    + now exists x'.
    + now exists (String d x).
Qed.

Lemma trimEnd_app_nonempty (u v : string) :
  trimEnd v <> "" -> trimEnd (u ++ v) = (u ++ trimEnd v)%string.
Proof.
  intros Hv. induction u as [|c u IH]; simpl; [reflexivity |].
  rewrite IH. destruct u; simpl; [| reflexivity].
  destruct (trimEnd v); [contradiction | reflexivity].
Qed.

Lemma trimEnd_keeps (x u y : string) (c : ascii) :
  isWhiteSpace c = false ->
  trimEnd (x ++ (u ++ String c "") ++ y)
  = (x ++ (u ++ String c "") ++ trimEnd y)%string.
Proof.
  intros Hc. rewrite !append_assoc_s. cbn [append].
  rewrite <- !(append_assoc_s x u).
  rewrite trimEnd_app_nonempty; rewrite (trimEnd_nonwhite _ _ Hc);
    [reflexivity | discriminate].
Qed.

(** Normalisation keeps occurrences: what contains [a] contains, once both
    are normalised, the normalised [a]. *)
Lemma substringOf_normalized (a s : string) :
  substringOf a s ->
  substringOf (trim (toLowerCase a)) (trim (toLowerCase s)).
Proof.
  intros (p & q & ->). rewrite !toLowerCase_app.
  set (A := toLowerCase a). set (P := toLowerCase p). set (Q := toLowerCase q).
  destruct (trimStart_split A) as [wl HA].
  destruct (trimEnd_split (trimStart A)) as [wr HB].
  fold (trim A) in HB.
  destruct (trimEnd_last (trimStart A)) as [Hcore | (u & c1 & Hcore & Hc1)];
    fold (trim A) in Hcore.
  { rewrite Hcore. exists "", (trim (P ++ A ++ Q)). reflexivity. }
  assert (exists c0 t, trim A = String c0 t /\ isWhiteSpace c0 = false)
    as (c0 & t & Hhead & Hc0).
  { unfold trim in *. destruct (trimStart_head A) as [He | (c0 & t & He & Hc0)].
    - rewrite He in Hcore. destruct u; discriminate.
    - exists c0, (trimEnd t). split; [| exact Hc0].
      rewrite He. now apply trimEnd_nonwhite. }
  assert ((P ++ A ++ Q)%string = ((P ++ wl) ++ trim A ++ (wr ++ Q))%string) as ->.
  { rewrite HA at 1. rewrite HB at 1. now rewrite !append_assoc_s. }
  unfold trim at 2.
  rewrite Hhead.
  destruct (trimStart_keeps (P ++ wl) (wr ++ Q) t c0 Hc0) as [x' ->].
  rewrite <- Hhead, Hcore. rewrite (trimEnd_keeps _ _ _ _ Hc1).
  now exists x', (trimEnd (wr ++ Q)).
Qed.

Lemma handleSubmit_contains (puzzle : Puzzle) (stored submission : string) :
  answer puzzle = JStr stored ->
  substringOf stored submission ->
  handleSubmit puzzle submission = Ok CORRECT.
Proof.
  intros Hans Hsub. rewrite (handleSubmit_string _ _ _ Hans).
  apply substringOf_normalized, includes_substring in Hsub.
  rewrite Hsub. now rewrite orb_true_r.
Qed.



(** X20. Whatever the backend replies, a grounded puzzle is the fallback
    (no options, the current year as the answer) or offers a list of
    options of type reality_check among which its own answer occurs; when
    that answer is a string, choosing it is judged correct. *)
Theorem grounded_puzzle_offers_its_answer (difficulty : Z) (e : Env)
  (reply : Backend) (p : Puzzle) :
  generatePuzzle (Some REALITY_NODE) difficulty e reply = Ok p ->
  (p = realityFallback e
   /\ options p = JUndefined /\ answer p = JStr (stringOfZ (year e)))
  \/ (exists opts,
        options p = JArr opts
        /\ In (answer p) opts
        /\ puzzleType p = JStr "reality_check"
        /\ forall c, answer p = JStr c ->
             In (JStr c) opts /\ handleSubmit p c = Ok CORRECT).
Proof.
  cbn [generatePuzzle isRealityNode]. intros Hgen.
  apply generateRealityPuzzle_cases in Hgen
    as [-> | (response & wrongList & correct & q & -> & ->)].
  - left. repeat split; reflexivity.
  - right. eexists. split; [reflexivity |]. cbn [answer options puzzleType].
    assert (In correct (sortRandom (draws e) (wrongList ++ [correct]))) as Hin.
    { eapply Permutation_in; [symmetry; apply sortRandom_Permutation |].
      apply in_or_app. right. now left. }
    split; [exact Hin |]. split; [reflexivity |].
    intros c ->. split; [exact Hin |].
    apply (handleSubmit_contains _ c c); [reflexivity |].
    exists "", "". simpl. now rewrite append_empty_r.
Qed.

Lemma grounded_puzzle_offers_its_answer_witness :
  exists p opts,
    generatePuzzle (Some REALITY_NODE) 1 abcEnv (Replied abcResponse) = Ok p
    /\ options p = JArr opts /\ In (answer p) opts.
Proof.
  eexists. eexists. split; [reflexivity |].
  destruct (grounded_puzzle_offers_its_answer 1 abcEnv (Replied abcResponse) _ eq_refl)
    as [(_ & H & _) | (opts & Ho & Hin & _)]; [discriminate H |].
  cbn [options] in Ho. split; [reflexivity |].
  cbn [options] in Ho. injection Ho as <-. exact Hin.
Defined.

End Answers.

(** ** Backups *)

Section Backups.

Lemma storage_load (s : System) (st : Stamp) (d : nat -> Q * Q) :
  storage (handle (LoadClick st d) s) = storage s
  /\ timers (handle (LoadClick st d) s) = timers s
  /\ forall i r, inFlight s !! i = Some r ->
       inFlight (handle (LoadClick st d) s) !! i = Some r.
Proof.
  cbn [handle]. destruct (loadGame st (storage s) (game s)) as [g [|]].
  - destruct (positionEffect d g) as [g' r]. cbn [storage timers inFlight].
    split; [reflexivity |]. split; [reflexivity |].
    intros i q Hi. destruct r as [q'|]; cbn [launch]; [| exact Hi].
    now apply lookup_app_l_Some.
  - cbn [storage timers inFlight]. auto.
Qed.

(** What local storage holds in a session: nothing, or the snapshot of
    the state some session was in when it saved. *)
Definition savedFrom (s : System) : Prop :=
  storage s = NoBackup
  \/ exists earlier, reachable earlier /\ storage s = Backup (serialize (game earlier)).

Lemma reachable_savedFrom (s : System) : reachable s -> savedFrom s.
Proof.
  induction 1 as [loadTime d | loadTime d earlier Hearlier IH | s ev Hs IH].
  - left. unfold mount. now destruct (positionEffect d (initialState loadTime)).
  - unfold savedFrom, mount.
    destruct (positionEffect d (initialState loadTime)). exact IH.
  - unfold savedFrom. destruct (isLoad ev) eqn:Hload.
    + destruct ev; try discriminate Hload.
      rewrite (proj1 (storage_load s st d)). exact IH.
    + destruct (handle_step s ev Hload) as (_ & _ & [-> | ->]); [exact IH |].
      right. exists s. split; [exact Hs | reflexivity].
Qed.

(** X21. In a session, a load never meets a corrupt entry. Without a
    backup it only reports so. With one, it restores the session that
    wrote it, whatever happened since and across page loads: that
    session's player, its log followed by the entry of the load, and its
    tiles and puzzle as JSON holds them, with no tile added. Either way
    the load cancels nothing: the requests in flight and the timers stay
    armed. *)
Theorem load_restores_the_saved_session (s : System) (st : Stamp) (d : nat -> Q * Q) :
  reachable s ->
  let s' := handle (LoadClick st d) s in
  timers s' = timers s
  /\ (forall i r, inFlight s !! i = Some r -> inFlight s' !! i = Some r)
  /\ ((storage s = NoBackup
       /\ game s' = addLog st "NO BACKUP FOUND IN LOCAL STORAGE." "warning" (game s))
      \/ exists earlier,
           reachable earlier
           /\ storage s = Backup (serialize (game earlier))
           /\ player (game s') = player (game earlier)
           /\ world (game s') = copyTile <$> world (game earlier)
           /\ activePuzzle (game s') = copyPuzzle <$> activePuzzle (game earlier)
           /\ logs (game s')
              = (logs (game earlier)
                   ++ [mkLog (stampId st) (stampTime st)
                         "SYSTEM RESTORED FROM BACKUP. [STATE LOADED]" "success"])%list).
Proof.
  intros Hs s'. subst s'.
  split; [apply storage_load |]. split; [apply storage_load |].
  destruct (reachable_savedFrom s Hs) as [Hnone | (earlier & Hearlier & Hst)].
  - left. split; [exact Hnone |]. cbn [handle]. now rewrite Hnone.
  - right. exists earlier. split; [exact Hearlier |]. split; [exact Hst |].
    cbn [handle]. rewrite Hst.
    cbn [loadGame serialize savedPlayer savedWorld savedLogs savedIsGenerating
         savedActivePuzzle].
    effect_state d. cbn [game].
    destruct (reachable_invariant earlier Hearlier) as (Hsur & Hok & _).
    destruct (snapshotOk_serialize (game earlier) Hsur Hok)
      as (pl & w & Hpl & Hw & Hsur' & _).
    cbn in Hpl, Hw. inversion Hpl; inversion Hw; subst pl w.
    cbn [serialize savedLogs savedIsGenerating savedActivePuzzle] in Hsur'.
    rewrite positionEffect_player, positionEffect_world_surrounded.
    + destruct (positionEffect_fields d
                  (addLog st "SYSTEM RESTORED FROM BACKUP. [STATE LOADED]" "success"
                     (mkState (player (game earlier)) (copyTile <$> world (game earlier))
                        (logs (game earlier)) false
                        (copyPuzzle <$> activePuzzle (game earlier)))))
        as [-> ->].
      repeat split.
    + exact Hsur'.
Qed.

Lemma load_restores_the_saved_session_witness :
  let s := mount 0 puzzleAtOrigin NoBackup in
  let s' := handle (LoadClick stamp0 allRealityNodes) s in
  reachable s
  /\ timers s' = timers s
  /\ forall i r, inFlight s !! i = Some r -> inFlight s' !! i = Some r.
Proof.
  intros s s'.
  pose proof (reachable_mount 0 puzzleAtOrigin) as Hs.
  split; [exact Hs |].
  destruct (load_restores_the_saved_session s stamp0 allRealityNodes Hs)
    as (Ht & Hi & _).
  split; [exact Ht | exact Hi].
Defined.

End Backups.

(** ** JSON, continued *)

Section JsonTwice.

Lemma isUndefined_jsonCopy (v : JsValue) : isUndefined (jsonCopy v) = isUndefined v.
Proof. destruct v; reflexivity. Qed.

(** What comes back from JSON holds no [undefined] below its top. *)
Lemma jsonClean_jsonCopy (v : JsValue) : jsonClean (jsonCopy v) = true.
Proof.
  induction v as [| | b | n | s | l IH | fs IH] using JsValue_nested_ind;
    try reflexivity.
  - rewrite jsonCopy_array, jsonClean_array.
    induction IH as [|x rest Hx _ IHrest]; [reflexivity |].
    cbn [List.map forallb]. rewrite IHrest, andb_true_r.
    destruct (isUndefined x) eqn:Hu; [reflexivity |].
    now rewrite isUndefined_jsonCopy, Hu, Hx.
  - rewrite jsonCopy_object, jsonClean_object.
    induction IH as [|[k x] rest Hx _ IHrest]; [reflexivity |].
    cbn [List.filter snd]. cbn [snd] in Hx.
    destruct (isUndefined x) eqn:Hu; cbn [negb]; [exact IHrest |].
    cbn [List.map forallb fst snd]. rewrite IHrest, andb_true_r.
    now rewrite isUndefined_jsonCopy, Hu, Hx.
Qed.

Lemma jsonCopy_idempotent (v : JsValue) : jsonCopy (jsonCopy v) = jsonCopy v.
Proof. apply jsonCopy_clean, jsonClean_jsonCopy. Qed.

Lemma copyTile_idempotent (t : TileData) : copyTile (copyTile t) = copyTile t.
Proof.
  apply copyTile_clean. split; destruct t; cbn; apply jsonClean_jsonCopy.
Qed.

Lemma copyPuzzle_idempotent (p : Puzzle) : copyPuzzle (copyPuzzle p) = copyPuzzle p.
Proof.
  apply copyPuzzle_clean. repeat split; cbn; apply jsonClean_jsonCopy.
Qed.

(** X22. JSON loses something at most once: after one save and load, a
    further save and load restore exactly the same player, tiles, puzzle
    and generation flag; only the log gains the entry of the load. *)
Theorem second_round_trip_is_exact (g : GameState) (store store' : Storage)
  (st1 st2 st3 st4 : Stamp) :
  let once := fst (roundTrip st1 st2 store g) in
  let twice := fst (roundTrip st3 st4 store' once) in
  snd (roundTrip st3 st4 store' once) = true
  /\ player twice = player once
  /\ world twice = world once
  /\ activePuzzle twice = activePuzzle once
  /\ isGenerating twice = isGenerating once
  /\ logs twice = (logs once ++ [restoredEntry st4])%list.
Proof.
  cbn zeta. unfold roundTrip, saveGame, loadGame, serialize.
  cbn [fst snd savedPlayer savedWorld savedLogs savedIsGenerating savedActivePuzzle
       addLog withLogs player world logs isGenerating activePuzzle].
  split; [reflexivity |]. split; [reflexivity |]. split; [| split].
  - apply map_eq. intros k. rewrite !lookup_fmap.
    destruct (world g !! k) as [t|]; [| reflexivity].
    cbn. f_equal. apply copyTile_idempotent.
  - destruct (activePuzzle g) as [p|]; [| reflexivity].
    cbn. f_equal. apply copyPuzzle_idempotent.
  - split; reflexivity.
Qed.

End JsonTwice.

(** ** Visual effects *)

Section Effects.

Lemma cleanupEffect_others (id : string) (l : list VisualEffect) :
  (forall e, In e l -> effectId e <> id) -> cleanupEffect id l = l.
Proof.
  unfold cleanupEffect. induction l as [|e l IH]; intros Hl; [reflexivity |].
  cbn [List.filter].
  destruct (String.eqb_spec (effectId e) id) as [He|_].
  - exfalso. apply (Hl e); [now left | exact He].
  - cbn [negb]. f_equal. apply IH. intros e' He'. apply Hl. now right.
Qed.

(** X23. An effect expires alone: when its timer fires, the effect is
    removed and every other effect, shown before or triggered since, stays
    in place and in order, provided the identifiers are distinct. Its
    timer runs for 1500 ms (success), 400 ms (move) or 800 ms. *)
Theorem effect_expires_alone (id : string) (x y : Z) (type : string)
  (prev later : list VisualEffect) :
  (forall e, In e (prev ++ later) -> effectId e <> id) ->
  cleanupEffect id (triggerEffect id x y type prev ++ later) = (prev ++ later)%list
  /\ In (mkEffect id x y type) (triggerEffect id x y type prev ++ later)
  /\ In (effectDuration type) [1500; 400; 800].
Proof.
  intros Hfresh. split; [| split].
  - unfold triggerEffect, cleanupEffect. rewrite !List.filter_app.
    fold (cleanupEffect id prev). fold (cleanupEffect id later).
    rewrite !cleanupEffect_others.
    + cbn [List.filter effectId]. rewrite String.eqb_refl. cbn [negb].
      now rewrite app_nil_r.
    + intros e He. apply Hfresh, in_or_app. now right.
    + intros e He. apply Hfresh, in_or_app. now left.
  - unfold triggerEffect. apply in_or_app. left. apply in_or_app. right. now left.
  - unfold effectDuration.
    destruct (type =? "success")%string; [now left |].
    destruct (type =? "move")%string; [right; now left | right; right; now left].
Qed.

Lemma effect_expires_alone_witness :
  cleanupEffect "b"
    (triggerEffect "b" 1 0 "move" [mkEffect "a" 0 0 "success"]
       ++ [mkEffect "c" 1 0 "unlock"])
  = [mkEffect "a" 0 0 "success"; mkEffect "c" 1 0 "unlock"].
Proof.
  apply (effect_expires_alone "b" 1 0 "move" [mkEffect "a" 0 0 "success"]
           [mkEffect "c" 1 0 "unlock"]).
  intros e [<- | [<- | []]]; discriminate.
Defined.

End Effects.

(** ** Enrichment after a failure *)

Section FailedEnrichment.



End FailedEnrichment.

(** ** Walks *)

Section Walks.

(** A sequence of moves, each with the draws of its position effect. *)
Definition walk (moves : list (Z * Z * (nat -> Q * Q))) : list Event :=
  List.map (fun m => KeyMove (fst (fst m)) (snd (fst m)) (snd m)) moves.

Definition totalX (moves : list (Z * Z * (nat -> Q * Q))) : Z :=
  fold_right (fun m acc => fst (fst m) + acc) 0 moves.

Definition totalY (moves : list (Z * Z * (nat -> Q * Q))) : Z :=
  fold_right (fun m acc => snd (fst m) + acc) 0 moves.

(** X25. With no puzzle attached, a walk ends where its moves add up to:
    no move is refused or lost, none attaches a puzzle, writes to the log,
    touches the backup or arms a timer, and at the end the player is
    again surrounded by tiles. *)
Theorem walks_add_up (moves : list (Z * Z * (nat -> Q * Q))) (s : System) :
  activePuzzle (game s) = None ->
  let s' := run (walk moves) s in
  coordX (position (player (game s')))
  = coordX (position (player (game s))) + totalX moves
  /\ coordY (position (player (game s')))
     = coordY (position (player (game s))) + totalY moves
  /\ activePuzzle (game s') = None
  /\ logs (game s') = logs (game s)
  /\ storage s' = storage s
  /\ timers s' = timers s
  /\ (moves <> [] -> surrounded (game s')).
Proof.
  cbn zeta. revert s. induction moves as [|[[dx dy] d] rest IH]; intros s Hn.
  - cbn. repeat split; try lia; try exact Hn. congruence.
  - cbn [walk List.map run fold_left fst snd totalX totalY fold_right].
    fold (walk rest). fold (run (walk rest) (handle (KeyMove dx dy d) s)).
    fold (totalX rest). fold (totalY rest).
    pose proof (keyMove_game s dx dy d Hn) as Hg.
    destruct (positionEffect_fields d (movedTo dx dy (game s))) as [Hl Ha].
    pose proof (positionEffect_player d (movedTo dx dy (game s))) as Hp.
    assert (storage (handle (KeyMove dx dy d) s) = storage s
            /\ timers (handle (KeyMove dx dy d) s) = timers s) as [Hst Htm].
    { cbn [handle]. destruct (movePlayer dx dy (game s)) as [g0|];
        [| split; reflexivity].
      destruct (positionEffect d g0) as [g1 r1]. split; reflexivity. }
    assert (activePuzzle (game (handle (KeyMove dx dy d) s)) = None) as Hn'.
    { rewrite Hg, Ha. exact Hn. }
    destruct (IH (handle (KeyMove dx dy d) s) Hn')
      as (Hx & Hy & Hnone & Hlogs & Hstore & Htimers & Hsur).
    rewrite Hx, Hy, Hlogs, Hstore, Htimers, Hst, Htm, Hg, Hp, Hl.
    cbn [movedTo player position coordX coordY withPlayer withPosition logs].
    repeat split; try lia; try exact Hnone.
    intros _. destruct rest as [|m rest'].
    + cbn [walk List.map run fold_left]. rewrite Hg.
      apply positionEffect_surrounded.
    + apply Hsur. discriminate.
Qed.

Lemma walks_add_up_witness :
  let s := mount 0 puzzleAtOrigin NoBackup in
  let s' := run (walk [(1, 0, puzzleAtOrigin); (1, 0, puzzleAtOrigin);
                       (0, -1, puzzleAtOrigin)]) s in
  coordX (position (player (game s'))) = 2
  /\ coordY (position (player (game s'))) = -1.
Proof.
  intros s s'.
  assert (activePuzzle (game s) = None) as Hn by (vm_compute; reflexivity).
  destruct (walks_add_up [(1, 0, puzzleAtOrigin); (1, 0, puzzleAtOrigin);
                          (0, -1, puzzleAtOrigin)] s Hn) as (Hx & Hy & _).
  subst s'. rewrite Hx, Hy. split; vm_compute; reflexivity.
Defined.

End Walks.
